(** * Parallel array reduction with CountedCompleter, and presized collectors

    A shallow embedding of the two pieces of Java code published in this
    repository:

    - [CustomCC], the [CountedCompleter] subclass of the post
      "Parallelism with Java Streams and CountedCompleter"
      (_posts/2019-12-28-CountedCompleter.md), together with the sequential
      loop the post starts from;
    - the "enable Collector pre-sizing" changeset against
      java.util.stream ([Collector], [Collectors.CollectorImpl],
      [ReduceOps.makeRef], [ReferencePipeline.collect] and
      [UnorderedConcurrentCollectorOp]).

    Java [int] and [long] values are integers in [Z]; every arithmetic
    operation of the source that can leave the 32 or 64 bit range is written
    with its wrap-around ([toInt], [toLong], [ushr]). *)

From Stdlib Require Import ZArith List Bool Lia.
Import ListNotations.

Local Open Scope Z_scope.

(** ** Java integer arithmetic *)

Module JavaInt.

Definition MAX_VALUE : Z := 2 ^ 31 - 1.

(** The narrowing conversion [(int) z]: the low 32 bits, read as a signed
    two's complement number. *)
Definition toInt (z : Z) : Z := (z + 2 ^ 31) mod 2 ^ 32 - 2 ^ 31.

(** The same for 64 bit [long] arithmetic. *)
Definition toLong (z : Z) : Z := (z + 2 ^ 63) mod 2 ^ 64 - 2 ^ 63.

(** [i >>> n] on an [int]: shift of the unsigned 32 bit pattern. *)
Definition ushr (i n : Z) : Z := toInt (Z.shiftr (i mod 2 ^ 32) n).

(** [i << n] on an [int]. *)
Definition shl (i n : Z) : Z := toInt (Z.shiftl i n).

(** [Integer.numberOfLeadingZeros]: the number of zero bits in front of the
    highest one bit of the 32 bit pattern of [i], and 32 when [i] is zero. *)
Definition numberOfLeadingZeros (i : Z) : Z :=
  let u := i mod 2 ^ 32 in
  if u =? 0 then 32 else 31 - Z.log2 u.

Definition isInt (z : Z) : Prop := - 2 ^ 31 <= z <= MAX_VALUE.

Definition isLong (z : Z) : Prop := - 2 ^ 63 <= z < 2 ^ 63.

End JavaInt.

(** ** The CountedCompleter subclass of the post *)

Module CustomCC.
Import JavaInt.

(** The values the post gives to its two constants.  [TARGET_LEAVES]
    depends on the machine through [availableProcessors]. *)
Definition post_TARGET_LEAVES (availableProcessors : Z) : Z :=
  shl availableProcessors 2.

Definition post_MIN_SIZE_PER_LEAF : Z := 10000.

(** A task as its constructor receives it.  [pending] is both the pending
    count handed to [CountedCompleter] and the length of [subs]. *)
Record CustomCC : Type := mkCustomCC
  { size : Z;
    pos : Z;
    pending : Z }.

(** A hash function to put in the place of [fnv] where an example needs a
    concrete one: 32 bit FNV-1a over the four bytes of [e], low byte
    first. *)
Definition fnv1a (e : Z) : Z :=
  let byte k := Z.land (Z.shiftr (e mod 2 ^ 32) (8 * k)) 255 in
  let round h b := (Z.lxor h b * 16777619) mod 2 ^ 32 in
  toInt (fold_left round [byte 0; byte 1; byte 2; byte 3] 2166136261).

Section Reduction.

(** The two constants of the class, and the hash function [fnv] the post
    calls without listing it. *)
Variables TARGET_LEAVES MIN_SIZE_PER_LEAF : Z.
Variable fnv : Z -> Z.

Definition computeInitialPending (size : Z) : Z :=
  let leaves := Z.min TARGET_LEAVES (Z.quot size MIN_SIZE_PER_LEAF) in
  if leaves =? 0 then 0 else 31 - numberOfLeadingZeros leaves.

(** [new CustomCC(arr)] *)
Definition newCustomCC (arr : list Z) : CustomCC :=
  let len := Z.of_nat (length arr) in
  mkCustomCC len 0 (computeInitialPending len).

(** The fork loop of [compute], run from index [p - 1] down to 0 on a
    task whose fields currently are [size] and [pos].  It returns the
    filled array [subs] (index 0 first) and the final value of the
    field [size]. *)
Fixpoint forkLoop (p : nat) (size pos : Z) : list CustomCC * Z :=
  match p with
  | O => ([], size)
  | S p' =>
      let size := ushr size 1 in
      let sub := mkCustomCC size (toInt (pos + size)) (Z.of_nat p') in
      let (subs, size') := forkLoop p' size pos in
      (subs ++ [sub], size')
  end.

Definition forks (t : CustomCC) : list CustomCC * Z :=
  forkLoop (Z.to_nat (pending t)) (size t) (pos t).

(** The children in the order in which they are forked: [subs] is
    filled from its last index down. *)
Definition forked (t : CustomCC) : list CustomCC := rev (fst (forks t)).

(** [if (e < 150) res += fnv(e) % 5;] *)
Definition step (res e : Z) : Z :=
  if e <? 150 then toLong (res + Z.rem (fnv e) 5) else res.

(** The sequential loop of the post. *)
Definition sequential (array : list Z) : Z := fold_left step array 0.

(** [a[i]]; [None] stands for ArrayIndexOutOfBoundsException. *)
Definition aload (a : list Z) (i : Z) : option Z :=
  if (i <? 0) || (Z.of_nat (length a) <=? i) then None
  else nth_error a (Z.to_nat i).

(** The guard in front of the leaf loop. *)
Definition leafGuard (a : list Z) (pos size : Z) : bool :=
  let hi := toInt (pos + size) in
  (hi <=? Z.of_nat (length a)) && (0 <=? pos) && (pos <? hi).

(** [do { ... } while (++i < hi);] with at most [n] iterations. *)
Fixpoint doWhile (n : nat) (a : list Z) (i hi res : Z) : option Z :=
  match n with
  | O => None
  | S n' =>
      match aload a i with
      | None => None
      | Some e =>
          let res := step res e in
          let i := toInt (i + 1) in
          if i <? hi then doWhile n' a i hi res else Some res
      end
  end.

(** The leaf part of [compute]. *)
Definition leaf (a : list Z) (pos size res : Z) : option Z :=
  if leafGuard a pos size
  then let hi := toInt (pos + size) in
       doWhile (Z.to_nat (hi - pos)) a pos hi res
  else Some res.

(** [onCompletion]: [for (CustomCC sub : subs) res += sub.res;] where
    the [res] of every sub task is final, or missing when that sub task
    did not complete. *)
Fixpoint onCompletion (subs : list (option Z)) (res : Z) : option Z :=
  match subs with
  | [] => Some res
  | None :: _ => None
  | Some r :: subs' => onCompletion subs' (toLong (res + r))
  end.

(** The field [res] of a task once it has completed: [compute] forks the
    sub tasks and runs the leaf loop, and [tryComplete] runs
    [onCompletion] after the last sub task has completed.  Every task
    writes its own [res] only, so the value does not depend on the
    schedule.  [depth] bounds the nesting of tasks. *)
Fixpoint complete (depth : nat) (arr : list Z) (t : CustomCC) : option Z :=
  match depth with
  | O => None
  | S depth' =>
      let (subs, size') := forks t in
      match leaf arr (pos t) size' 0 with
      | None => None
      | Some res => onCompletion (map (complete depth' arr) subs) res
      end
  end.

(** [new CustomCC(arr).invoke()] *)
Definition invoke (arr : list Z) : option Z :=
  let root := newCustomCC arr in
  complete (S (Z.to_nat (pending root))) arr root.

(** The ranges [(pos, size)] on which the tasks of the forest below [t]
    run their leaf loops, from left to right. *)
Fixpoint leafRanges (depth : nat) (t : CustomCC) : list (Z * Z) :=
  match depth with
  | O => []
  | S depth' =>
      let (subs, size') := forks t in
      (pos t, size') :: flat_map (leafRanges depth') subs
  end.

Definition splitter (N : Z) : list (Z * Z) :=
  let root := mkCustomCC N 0 (computeInitialPending N) in
  leafRanges (S (Z.to_nat (pending root))) root.

(** A task whose range lies inside an array of [len] elements. *)
Definition inside (len : Z) (t : CustomCC) : Prop :=
  0 <= pending t /\ 0 <= size t /\ 0 <= pos t /\ pos t + size t <= len.

(** The elements of [a] at the indices of the range [pos, pos + size). *)
Definition slice (a : list Z) (pos size : Z) : list Z :=
  firstn (Z.to_nat size) (skipn (Z.to_nat pos) a).

(** The elements the leaf loops read on a list of ranges, in that order. *)
Definition covered (a : list Z) (ranges : list (Z * Z)) : list Z :=
  flat_map (fun r => slice a (fst r) (snd r)) ranges.

(** The sum of the lengths of a list of ranges. *)
Definition totalLength (ranges : list (Z * Z)) : Z :=
  fold_right Z.add 0 (map snd ranges).

(** Index [i] lies in the range [r]. *)
Definition inRange (i : Z) (r : Z * Z) : Prop :=
  fst r <= i < fst r + snd r.

(** A list of ranges that follow each other without gap or overlap from
    [lo] to [hi]. *)
Fixpoint tiles (lo hi : Z) (ranges : list (Z * Z)) : Prop :=
  match ranges with
  | [] => lo = hi
  | r :: ranges' => fst r = lo /\ 0 <= snd r /\ tiles (lo + snd r) hi ranges'
  end.

End Reduction.

End CustomCC.

(** ** The presizing changeset against java.util.stream *)

(** Exceptional completion of a Java call. *)
Inductive Throwable : Type :=
  | IllegalArgumentException
  | IllegalStateException.

Inductive Exc (A : Type) : Type :=
  | Return (a : A)
  | Throw (e : Throwable).

Arguments Return {A} a.
Arguments Throw {A} e.

Definition bind {A B : Type} (m : Exc A) (k : A -> Exc B) : Exc B :=
  match m with
  | Return a => k a
  | Throw e => Throw e
  end.

Module Collector.

Inductive Characteristics : Type := CONCURRENT | UNORDERED | IDENTITY_FINISH.

Definition Characteristics_eqb (x y : Characteristics) : bool :=
  match x, y with
  | CONCURRENT, CONCURRENT
  | UNORDERED, UNORDERED
  | IDENTITY_FINISH, IDENTITY_FINISH => true
  | _, _ => false
  end.

(** [Set<Characteristics>.contains] *)
Definition contains (cs : list Characteristics) (x : Characteristics) : bool :=
  existsb (Characteristics_eqb x) cs.

(** The interface after the changeset.  A supplier allocates a container
    and may throw; [accumulator] and [combiner] are written in
    state-passing style.  Function arguments are total functions here, so
    the [Objects.requireNonNull] checks of the source always pass. *)
Record Collector (T A R : Type) : Type := mkCollector
  { sizedSupplier : Z -> Exc A;
    supplier : unit -> Exc A;
    accumulator : A -> T -> A;
    combiner : A -> A -> A;
    finisher : A -> R;
    characteristics : list Characteristics }.

Arguments mkCollector {T A R}.
Arguments sizedSupplier {T A R}.
Arguments supplier {T A R}.
Arguments accumulator {T A R}.
Arguments combiner {T A R}.
Arguments finisher {T A R}.
Arguments characteristics {T A R}.

(** The abstract methods of the interface: what a class has to provide
    when it implements [Collector] and inherits [sizedSupplier]. *)
Record Implementation (T A R : Type) : Type := mkImplementation
  { impl_supplier : unit -> Exc A;
    impl_accumulator : A -> T -> A;
    impl_combiner : A -> A -> A;
    impl_finisher : A -> R;
    impl_characteristics : list Characteristics }.

Arguments mkImplementation {T A R}.
Arguments impl_supplier {T A R}.
Arguments impl_accumulator {T A R}.
Arguments impl_combiner {T A R}.
Arguments impl_finisher {T A R}.
Arguments impl_characteristics {T A R}.

Section Interface.
Context {T A R : Type}.

(** [default IntFunction<A> sizedSupplier()] *)
Definition default_sizedSupplier (supplier : unit -> Exc A) : Z -> Exc A :=
  fun ignored => supplier tt.

(** A collector of a class that does not override [sizedSupplier]. *)
Definition inherit (i : Implementation T A R) : Collector T A R :=
  mkCollector (default_sizedSupplier (impl_supplier i)) (impl_supplier i)
              (impl_accumulator i) (impl_combiner i) (impl_finisher i)
              (impl_characteristics i).

(** [sizedSupplier] of [c] makes no use of the capacity it is given: it
    does what [supplier] does. *)
Definition ignoresCapacity (c : Collector T A R) : Prop :=
  forall n m : Z,
    sizedSupplier c n = supplier c tt /\ sizedSupplier c m = supplier c tt.

(** [c] with another combiner. *)
Definition withCombiner (c : Collector T A R) (combiner : A -> A -> A)
  : Collector T A R :=
  mkCollector (sizedSupplier c) (supplier c) (accumulator c) combiner
              (finisher c) (characteristics c).

End Interface.

(** How a container was allocated, and a collector whose container is
    just this record: it shows which of its two suppliers a caller used,
    and with which capacity. *)
Inductive Allocation : Type :=
  | ByNew
  | BySizedNew (capacity : Z).

Definition recording : Collector unit Allocation Allocation :=
  mkCollector (fun n => Return (BySizedNew n)) (fun _ => Return ByNew)
              (fun a _ => a) (fun a _ => a) (fun a => a) [].

End Collector.

Module Collectors.
Import Collector.

(** The characteristic sets of [Collectors] used below. *)
Definition CH_ID : list Characteristics := [IDENTITY_FINISH].
Definition CH_NOID : list Characteristics := [].

Section CollectorImpl.
Context {T A : Type}.

(** [castingIdentity()] *)
Definition castingIdentity : A -> A := fun i => i.

(** The four constructors of [CollectorImpl]: with a sized supplier and
    a finisher, with a sized supplier only, with a finisher only, and
    with neither. *)
Definition CollectorImpl_sized_finisher {R : Type}
    (sizedSupplier : Z -> Exc A) (supplier : unit -> Exc A)
    (accumulator : A -> T -> A) (combiner : A -> A -> A)
    (finisher : A -> R) (characteristics : list Characteristics)
  : Collector T A R :=
  mkCollector sizedSupplier supplier accumulator combiner finisher
              characteristics.

Definition CollectorImpl_sized
    (sizedSupplier : Z -> Exc A) (supplier : unit -> Exc A)
    (accumulator : A -> T -> A) (combiner : A -> A -> A)
    (characteristics : list Characteristics)
  : Collector T A A :=
  CollectorImpl_sized_finisher sizedSupplier supplier accumulator combiner
                               castingIdentity characteristics.

Definition CollectorImpl_finisher {R : Type}
    (supplier : unit -> Exc A)
    (accumulator : A -> T -> A) (combiner : A -> A -> A)
    (finisher : A -> R) (characteristics : list Characteristics)
  : Collector T A R :=
  CollectorImpl_sized_finisher (fun ignored => supplier tt) supplier
                               accumulator combiner finisher
                               characteristics.

Definition CollectorImpl
    (supplier : unit -> Exc A)
    (accumulator : A -> T -> A) (combiner : A -> A -> A)
    (characteristics : list Characteristics)
  : Collector T A A :=
  CollectorImpl_finisher supplier accumulator combiner castingIdentity
                         characteristics.

(** The static factories [Collector.of]; the varargs array
    [characteristics] is a list. *)
Definition of_sized
    (sizedSupplier : Z -> Exc A) (supplier : unit -> Exc A)
    (accumulator : A -> T -> A) (combiner : A -> A -> A)
    (characteristics : list Characteristics)
  : Collector T A A :=
  let cs := if (length characteristics =? 0)%nat
            then CH_ID
            else IDENTITY_FINISH :: characteristics in
  CollectorImpl_sized sizedSupplier supplier accumulator combiner cs.

Definition of_sized_finisher {R : Type}
    (sizedSupplier : Z -> Exc A) (supplier : unit -> Exc A)
    (accumulator : A -> T -> A) (combiner : A -> A -> A)
    (finisher : A -> R) (characteristics : list Characteristics)
  : Collector T A R :=
  let cs := if (0 <? length characteristics)%nat
            then characteristics
            else CH_NOID in
  CollectorImpl_sized_finisher sizedSupplier supplier accumulator combiner
                               finisher cs.

Definition of_supplier
    (supplier : unit -> Exc A)
    (accumulator : A -> T -> A) (combiner : A -> A -> A)
    (characteristics : list Characteristics)
  : Collector T A A :=
  of_sized (fun ignored => supplier tt) supplier accumulator combiner
           characteristics.

Definition of_supplier_finisher {R : Type}
    (supplier : unit -> Exc A)
    (accumulator : A -> T -> A) (combiner : A -> A -> A)
    (finisher : A -> R) (characteristics : list Characteristics)
  : Collector T A R :=
  of_sized_finisher (fun ignored => supplier tt) supplier accumulator
                    combiner finisher characteristics.

End CollectorImpl.

(** [java.util.ArrayList], as far as [toList] needs it: the capacity the
    list was created with, and its elements.  [ArrayList(int)] rejects a
    negative capacity with IllegalArgumentException; [ArrayList()] starts
    with the default capacity of ten. *)
Record ArrayList (T : Type) : Type := mkArrayList
  { initialCapacity : Z;
    elements : list T }.

Arguments mkArrayList {T}.
Arguments initialCapacity {T}.
Arguments elements {T}.

Definition ArrayList_new_capacity {T : Type} (initialCapacity : Z)
  : Exc (ArrayList T) :=
  if initialCapacity <? 0 then Throw IllegalArgumentException
  else Return (mkArrayList initialCapacity []).

Definition ArrayList_new {T : Type} (_ : unit) : Exc (ArrayList T) :=
  Return (mkArrayList 10 []).

(** [List::add] *)
Definition ArrayList_add {T : Type} (l : ArrayList T) (t : T) : ArrayList T :=
  mkArrayList (initialCapacity l) (elements l ++ [t]).

(** [(left, right) -> { left.addAll(right); return left; }] *)
Definition ArrayList_addAll {T : Type} (left right : ArrayList T)
  : ArrayList T :=
  mkArrayList (initialCapacity left) (elements left ++ elements right).

(** [Collectors.toList()] *)
Definition toList {T : Type} : Collector T (ArrayList T) (ArrayList T) :=
  CollectorImpl_sized ArrayList_new_capacity ArrayList_new
                      ArrayList_add ArrayList_addAll CH_ID.

End Collectors.

Module ReduceOps.
Import JavaInt Collector.

(** [Box<I>]: the field [state], null until [begin] runs. *)
Record Box (I : Type) : Type := mkBox { state : option I }.
Arguments mkBox {I}.
Arguments state {I}.

(** [ReducingSink.begin] of [makeRef(collector)]. *)
Definition begin {T I R : Type} (collector : Collector T I R)
    (size : Z) (sink : Box I) : Exc (Box I) :=
  if size =? -1
  then bind (supplier collector tt) (fun s => Return (mkBox (Some s)))
  else bind (sizedSupplier collector (toInt size))
            (fun s => Return (mkBox (Some s))).

End ReduceOps.

Module ReferencePipeline.
Import JavaInt Collector.

(** What [collect] asks of the pipeline it runs on. *)
Record Pipeline : Type := mkPipeline
  { isParallel : bool;
    isOrdered : bool }.

(** The terminal operation [collect] hands to [evaluate]. *)
Inductive TerminalOp (T A R : Type) : Type :=
  | UnorderedConcurrentCollectorOp (collector : Collector T A R)
  | makeRef (collector : Collector T A R).

Arguments UnorderedConcurrentCollectorOp {T A R}.
Arguments makeRef {T A R}.

Section Collect.
Context {T A R : Type}.

Definition collect_op (p : Pipeline) (collector : Collector T A R)
  : TerminalOp T A R :=
  if isParallel p
     && contains (characteristics collector) CONCURRENT
     && (negb (isOrdered p)
         || contains (characteristics collector) UNORDERED)
  then UnorderedConcurrentCollectorOp collector
  else makeRef collector.


(** The value [evaluateParallel] of [UnorderedConcurrentCollectorOp]
    assigns to [res], given [helper.exactOutputSizeIfKnown(spliterator)]. *)
Definition evaluateParallel_res (collector : Collector T A R)
    (exactOutputSizeIfKnown : Z) : Exc A :=
  let size := exactOutputSizeIfKnown in
  if negb (size =? -1)
  then sizedSupplier collector (toInt size)
  else supplier collector tt.

(** [evaluateParallel]: [forEachTask] stands for the invocation of the
    ForEachTask, which pushes every element into [accept] and leaves the
    result in the shared container. *)
Definition evaluateParallel (collector : Collector T A R)
    (exactOutputSizeIfKnown : Z) (forEachTask : A -> Exc A) : Exc A :=
  bind (evaluateParallel_res collector exactOutputSizeIfKnown) forEachTask.

(** [evaluateSequential] *)
Definition evaluateSequential (collector : Collector T A R) : Exc A :=
  Throw IllegalStateException.

End Collect.

End ReferencePipeline.

(** ** Further notions on leaf ranges and on the sum *)

Module Coverage.
Import JavaInt CustomCC.

(** A list of ranges inside [lo, hi] in which every range starts at or
    after the end of the one before it. *)
Fixpoint separated (lo hi : Z) (ranges : list (Z * Z)) : Prop :=
  match ranges with
  | [] => lo <= hi
  | r :: ranges' =>
      lo <= fst r /\ 0 <= snd r /\ separated (fst r + snd r) hi ranges'
  end.

(** What one element adds to [res], as an integer. *)
Definition summand (fnv : Z -> Z) (e : Z) : Z :=
  if e <? 150 then Z.rem (fnv e) 5 else 0.

(** The sum of the summands without any wrap-around. *)
Definition exactSum (fnv : Z -> Z) (array : list Z) : Z :=
  fold_right (fun e s => summand fnv e + s) 0 array.

End Coverage.

(** ** Collectors of the changeset that wrap another collector *)

Module Adapters.
Import Collector Collectors.


Section Downstream.
Context {T U A R : Type}.

(** [Collectors.mapping(mapper, downstream)] *)
Definition mapping (mapper : T -> U) (downstream : Collector U A R)
  : Collector T A R :=
  let downstreamAccumulator := accumulator downstream in
  CollectorImpl_sized_finisher
    (sizedSupplier downstream) (supplier downstream)
    (fun r t => downstreamAccumulator r (mapper t))
    (combiner downstream) (finisher downstream)
    (characteristics downstream).

End Downstream.

Section Filtering.
Context {T A R : Type}.

(** [Collectors.filtering(predicate, downstream)] *)
Definition filtering (predicate : T -> bool) (downstream : Collector T A R)
  : Collector T A R :=
  let downstreamAccumulator := accumulator downstream in
  CollectorImpl_sized_finisher
    (sizedSupplier downstream) (supplier downstream)
    (fun r t => if predicate t then downstreamAccumulator r t else r)
    (combiner downstream) (finisher downstream)
    (characteristics downstream).

End Filtering.

Section Teeing.
Context {T A1 A2 R1 R2 : Type}.

(** The two constructors of the class [PairBox] of [teeing]: the fields
    [left] and [right], in the order in which they are assigned. *)
Definition PairBox_sized (downstream1 : Collector T A1 R1)
    (downstream2 : Collector T A2 R2) (initialSize : Z) : Exc (A1 * A2) :=
  bind (sizedSupplier downstream1 initialSize) (fun left =>
  bind (sizedSupplier downstream2 initialSize) (fun right =>
  Return (left, right))).

Definition PairBox (downstream1 : Collector T A1 R1)
    (downstream2 : Collector T A2 R2) (_ : unit) : Exc (A1 * A2) :=
  bind (supplier downstream1 tt) (fun left =>
  bind (supplier downstream2 tt) (fun right =>
  Return (left, right))).

End Teeing.

End Adapters.

(** ** The universal hashing of the post "Fast Universal Hashing in Java" *)

Module UniversalHash.
Import JavaInt.

(** [l >>> n] on a [long]. *)
Definition lushr (l n : Z) : Z := toLong (Z.shiftr (l mod 2 ^ 64) n).

Definition G_FACTOR_64 : Z := -7046029254386353131.

(** The two hashes a [Record] keeps of its key. *)
Record Record : Type := mkRecord
  { ha : Z;
    hb : Z }.

(** [new Record(key, value)], given [key.hashCode()]. *)
Definition newRecord (hashCode : Z) : Record :=
  let fibHash := toLong (hashCode * G_FACTOR_64) in
  mkRecord (toInt fibHash) (toInt (lushr fibHash 32)).

(** [hash(i)]: [ha * i + hb] in [int] arithmetic. *)
Definition hash (r : Record) (i : Z) : Z :=
  toInt (toInt (ha r * i) + hb r).

(** The reduction to an index of an array of [length] elements:
    [(int) ((hash_i & 0xffffffffL) * array.length >>> 32)]. *)
Definition index (hash_i length : Z) : Z :=
  toInt (lushr (toLong (Z.land hash_i 4294967295 * length)) 32).

End UniversalHash.

(** * Properties *)

(** ** Java integer arithmetic inside its range *)

Module JavaIntFacts.
Import JavaInt.

Lemma toInt_id (z : Z) : - 2 ^ 31 <= z <= MAX_VALUE -> toInt z = z.
Proof.
  unfold toInt, MAX_VALUE. intros H.
  rewrite Z.mod_small by lia. lia.
Qed.

Lemma toLong_id (z : Z) : - 2 ^ 63 <= z < 2 ^ 63 -> toLong z = z.
Proof.
  unfold toLong. intros H.
  rewrite Z.mod_small by lia. lia.
Qed.

Lemma toLong_range (z : Z) : - 2 ^ 63 <= toLong z < 2 ^ 63.
Proof.
  unfold toLong.
  pose proof (Z.mod_pos_bound (z + 2 ^ 63) (2 ^ 64) ltac:(lia)). lia.
Qed.

(** Additions may be wrapped at any time: only the final wrap counts. *)
Lemma toLong_add_l (a b : Z) : toLong (toLong a + b) = toLong (a + b).
Proof.
  unfold toLong.
  replace ((a + 2 ^ 63) mod 2 ^ 64 - 2 ^ 63 + b + 2 ^ 63)
    with ((a + 2 ^ 63) mod 2 ^ 64 + b) by lia.
  rewrite Z.add_mod_idemp_l by lia.
  f_equal. f_equal. lia.
Qed.

Lemma toLong_add_r (a b : Z) : toLong (a + toLong b) = toLong (a + b).
Proof.
  rewrite (Z.add_comm a (toLong b)), toLong_add_l. f_equal. lia.
Qed.

Lemma ushr_1_half (s : Z) : 0 <= s <= MAX_VALUE -> ushr s 1 = s / 2.
Proof.
  unfold ushr, MAX_VALUE. intros H.
  rewrite Z.mod_small by lia.
  rewrite Z.shiftr_div_pow2 by lia.
  change (2 ^ 1) with 2.
  apply toInt_id. unfold MAX_VALUE.
  pose proof (Z.div_pos s 2 ltac:(lia) ltac:(lia)).
  assert (s / 2 <= s) by (apply Z.div_le_upper_bound; lia).
  lia.
Qed.

Lemma numberOfLeadingZeros_log2 (i : Z) :
  0 < i <= MAX_VALUE -> 31 - numberOfLeadingZeros i = Z.log2 i.
Proof.
  unfold numberOfLeadingZeros, MAX_VALUE. intros H.
  rewrite Z.mod_small by lia.
  destruct (Z.eqb_spec i 0); lia.
Qed.

Lemma shl_2_times_4 (n : Z) : 0 <= n < 2 ^ 29 -> shl n 2 = 4 * n.
Proof.
  unfold shl. intros H.
  rewrite Z.shiftl_mul_pow2 by lia.
  change (2 ^ 2) with 4.
  rewrite toInt_id; unfold MAX_VALUE; lia.
Qed.

End JavaIntFacts.

(** ** The task forest of CustomCC *)

Module CustomCCFacts.
Import JavaInt JavaIntFacts CustomCC.

Section Facts.

Variables TARGET_LEAVES MIN_SIZE_PER_LEAF : Z.
Variable fnv : Z -> Z.

Local Abbreviation computeInitialPending :=
  (computeInitialPending TARGET_LEAVES MIN_SIZE_PER_LEAF).
Local Abbreviation newCustomCC := (newCustomCC TARGET_LEAVES MIN_SIZE_PER_LEAF).
Local Abbreviation step := (step fnv).
Local Abbreviation sequential := (sequential fnv).
Local Abbreviation doWhile := (doWhile fnv).
Local Abbreviation leaf := (leaf fnv).
Local Abbreviation complete := (complete fnv).
Local Abbreviation invoke := (invoke TARGET_LEAVES MIN_SIZE_PER_LEAF fnv).
Local Abbreviation splitter := (splitter TARGET_LEAVES MIN_SIZE_PER_LEAF).

(** *** computeInitialPending *)

Lemma leaves_range (N : Z) :
  0 <= TARGET_LEAVES -> 0 < MIN_SIZE_PER_LEAF -> 0 <= N <= MAX_VALUE ->
  Z.quot N MIN_SIZE_PER_LEAF = N / MIN_SIZE_PER_LEAF /\
  0 <= Z.min TARGET_LEAVES (N / MIN_SIZE_PER_LEAF) <= N.
Proof.
  intros HT HM HN. split.
  - apply Z.quot_div_nonneg; lia.
  - assert (0 <= N / MIN_SIZE_PER_LEAF) by (apply Z.div_pos; lia).
    assert (N / MIN_SIZE_PER_LEAF <= N)
      by (apply Z.div_le_upper_bound; nia).
    lia.
Qed.

Lemma computeInitialPending_log2 (N : Z) :
  0 <= TARGET_LEAVES -> 0 < MIN_SIZE_PER_LEAF -> 0 <= N <= MAX_VALUE ->
  computeInitialPending N = Z.log2 (Z.min TARGET_LEAVES (N / MIN_SIZE_PER_LEAF)).
Proof.
  intros HT HM HN. unfold CustomCC.computeInitialPending.
  destruct (leaves_range N HT HM HN) as [-> Hl].
  set (leaves := Z.min TARGET_LEAVES (N / MIN_SIZE_PER_LEAF)) in *.
  destruct (Z.eqb_spec leaves 0) as [-> | Hne].
  - reflexivity.
  - apply numberOfLeadingZeros_log2. lia.
Qed.

Lemma computeInitialPending_nonneg (N : Z) :
  0 <= TARGET_LEAVES -> 0 < MIN_SIZE_PER_LEAF -> 0 <= N <= MAX_VALUE ->
  0 <= computeInitialPending N.
Proof.
  intros HT HM HN. rewrite computeInitialPending_log2 by assumption.
  apply Z.log2_nonneg.
Qed.

(** Whatever [int] the constant TARGET_LEAVES holds, the pending count is
    between 0 and 31, so that [new CustomCC[pending]] is a legal array
    creation. *)
Lemma computeInitialPending_range (N : Z) :
  isInt TARGET_LEAVES -> 0 < MIN_SIZE_PER_LEAF -> 0 <= N <= MAX_VALUE ->
  0 <= computeInitialPending N <= 31.
Proof.
  unfold isInt, MAX_VALUE. intros HT HM HN.
  destruct (Z.le_gt_cases 0 TARGET_LEAVES) as [Hnn | Hneg].
  - rewrite computeInitialPending_log2 by (unfold MAX_VALUE; lia).
    destruct (leaves_range N Hnn HM ltac:(unfold MAX_VALUE; lia)) as [_ Hl].
    split; [apply Z.log2_nonneg |].
    set (leaves := Z.min TARGET_LEAVES (N / MIN_SIZE_PER_LEAF)) in *.
    destruct (Z.eq_dec leaves 0) as [-> | Hne]; [cbn; lia |].
    assert (Z.log2 leaves < 31); [| lia].
    apply Z.log2_lt_pow2; lia.
  - unfold CustomCC.computeInitialPending.
    assert (0 <= Z.quot N MIN_SIZE_PER_LEAF) by (apply Z.quot_pos; lia).
    rewrite Z.min_l by lia.
    destruct (Z.eqb_spec TARGET_LEAVES 0); [lia |].
    unfold numberOfLeadingZeros.
    replace (TARGET_LEAVES mod 2 ^ 32) with (TARGET_LEAVES + 2 ^ 32).
    + destruct (Z.eqb_spec (TARGET_LEAVES + 2 ^ 32) 0); [lia |].
      rewrite (Z.log2_unique (TARGET_LEAVES + 2 ^ 32) 31) by lia. lia.
    + apply Z.mod_unique with (q := -1); lia.
Qed.

(** *** The fork loop *)

Lemma div2_div_pow2 (s j : Z) : 0 <= j -> s / 2 / 2 ^ j = s / 2 ^ (j + 1).
Proof.
  intros Hj.
  rewrite Z.div_div by lia.
  rewrite Z.pow_add_r by lia. f_equal. change (2 ^ 1) with 2. lia.
Qed.

Lemma div_pow2_bounds (s j : Z) :
  0 <= s -> 1 <= j -> 0 <= s / 2 ^ j /\ 2 * (s / 2 ^ j) <= s.
Proof.
  intros Hs Hj.
  assert (H2 : 2 <= 2 ^ j).
  { change 2 with (2 ^ 1) at 1. apply Z.pow_le_mono_r; lia. }
  split.
  - apply Z.div_pos; lia.
  - assert (s / 2 ^ j <= s / 2) by (apply Z.div_le_compat_l; lia).
    pose proof (Z.mul_div_le s 2 ltac:(lia)). lia.
Qed.

Lemma forkLoop_closed (p : nat) : forall size pos,
  0 <= size -> 0 <= pos -> pos + size <= MAX_VALUE ->
  forkLoop p size pos =
    (map (fun k => mkCustomCC (size / 2 ^ (Z.of_nat p - Z.of_nat k))
                              (pos + size / 2 ^ (Z.of_nat p - Z.of_nat k))
                              (Z.of_nat k))
         (seq 0 p),
     size / 2 ^ Z.of_nat p).
Proof.
  induction p as [| p IH]; intros size pos Hs Hp Hmax.
  - cbn. rewrite Z.div_1_r. reflexivity.
  - cbn [forkLoop].
    destruct (div_pow2_bounds size 1 Hs ltac:(lia)) as [Hh0 Hh1].
    change (2 ^ 1) with 2 in Hh0, Hh1.
    rewrite ushr_1_half by (unfold MAX_VALUE in *; lia).
    rewrite toInt_id by (unfold MAX_VALUE in *; lia).
    rewrite IH by lia.
    rewrite seq_S, map_app. cbn [map Nat.add].
    f_equal.
    + f_equal.
      * apply map_ext_in. intros k Hk. apply in_seq in Hk.
        rewrite div2_div_pow2 by lia.
        replace (Z.of_nat (S p) - Z.of_nat k) with (Z.of_nat p - Z.of_nat k + 1)
          by lia.
        reflexivity.
      * replace (Z.of_nat (S p) - Z.of_nat p) with 1 by lia.
        reflexivity.
    + rewrite div2_div_pow2 by lia.
      replace (Z.of_nat (S p)) with (Z.of_nat p + 1) by lia.
      reflexivity.
Qed.

Lemma forks_inside (len : Z) (t : CustomCC) :
  len <= MAX_VALUE -> inside len t ->
  (forall sub, In sub (fst (forks t)) ->
     inside len sub /\ pending sub < pending t) /\
  0 <= snd (forks t) /\ pos t + snd (forks t) <= len.
Proof.
  intros Hlen (Hp & Hs & Hpos & Hin). unfold forks.
  rewrite forkLoop_closed by lia. cbn [fst snd]. split.
  - intros sub Hsub. apply in_map_iff in Hsub as (k & <- & Hk).
    apply in_seq in Hk. unfold inside. cbn [pending size pos].
    destruct (div_pow2_bounds (size t)
                (Z.of_nat (Z.to_nat (pending t)) - Z.of_nat k) Hs ltac:(lia)).
    lia.
  - assert (0 < 2 ^ Z.of_nat (Z.to_nat (pending t)))
      by (apply Z.pow_pos_nonneg; lia).
    assert (0 <= size t / 2 ^ Z.of_nat (Z.to_nat (pending t)))
      by (apply Z.div_pos; lia).
    assert (size t / 2 ^ Z.of_nat (Z.to_nat (pending t)) <= size t)
      by (apply Z.div_le_upper_bound; nia).
    lia.
Qed.

Lemma rev_seq (p : nat) :
  rev (seq 0 p) = map (fun j => (p - 1 - j)%nat) (seq 0 p).
Proof.
  induction p as [| p IH].
  - reflexivity.
  - rewrite seq_S at 1. rewrite rev_app_distr. cbn [rev app Nat.add].
    cbn [seq map]. f_equal; [lia |].
    rewrite IH, <- seq_shift, map_map.
    apply map_ext. intros j. lia.
Qed.

(** *** The leaf loop *)

Lemma skipn_nth_error (a : list Z) : forall (k : nat) (e : Z),
  nth_error a k = Some e -> skipn k a = e :: skipn (S k) a.
Proof.
  induction a as [| x a IH]; intros [| k] e H; cbn in H; try discriminate.
  - injection H as ->. reflexivity.
  - cbn [skipn]. rewrite (IH k e H). reflexivity.
Qed.

Lemma aload_inside (a : list Z) (i : Z) :
  0 <= i < Z.of_nat (length a) ->
  exists e, aload a i = Some e /\ nth_error a (Z.to_nat i) = Some e.
Proof.
  intros Hi. unfold aload.
  destruct (Z.ltb_spec i 0); [lia |].
  destruct (Z.leb_spec (Z.of_nat (length a)) i); [lia |]. cbn [orb].
  destruct (nth_error a (Z.to_nat i)) as [e |] eqn:E.
  - exists e. split; reflexivity.
  - apply nth_error_None in E. lia.
Qed.

Lemma doWhile_fold (a : list Z) (hi : Z) :
  hi <= Z.of_nat (length a) <= MAX_VALUE ->
  forall (n : nat) (i res : Z),
    0 <= i -> i + Z.of_nat (S n) = hi ->
    doWhile (S n) a i hi res =
      Some (fold_left step (firstn (S n) (skipn (Z.to_nat i) a)) res).
Proof.
  intros Hhi. induction n as [| n IH]; intros i res Hi Hn.
  - cbn [CustomCC.doWhile].
    destruct (aload_inside a i ltac:(lia)) as (e & -> & He).
    rewrite (skipn_nth_error a _ e He).
    rewrite toInt_id by (unfold MAX_VALUE in *; lia).
    destruct (Z.ltb_spec (i + 1) hi); [lia |]. reflexivity.
  - change (CustomCC.doWhile fnv (S (S n)) a i hi res)
      with (match aload a i with
            | None => None
            | Some e =>
                if toInt (i + 1) <? hi
                then doWhile (S n) a (toInt (i + 1)) hi (step res e)
                else Some (step res e)
            end).
    destruct (aload_inside a i ltac:(lia)) as (e & -> & He).
    rewrite (skipn_nth_error a _ e He).
    rewrite toInt_id by (unfold MAX_VALUE in *; lia).
    destruct (Z.ltb_spec (i + 1) hi); [| lia].
    rewrite IH by lia.
    replace (Z.to_nat (i + 1)) with (S (Z.to_nat i)) by lia.
    reflexivity.
Qed.

(** On a range inside the array the leaf loop completes, and folds [step]
    over the elements of the range from left to right. *)
Lemma leaf_fold (a : list Z) (pos size res : Z) :
  Z.of_nat (length a) <= MAX_VALUE ->
  0 <= pos -> 0 <= size -> pos + size <= Z.of_nat (length a) ->
  leaf a pos size res = Some (fold_left step (slice a pos size) res).
Proof.
  intros Hlen Hpos Hsize Hin. unfold CustomCC.leaf, leafGuard, slice.
  rewrite toInt_id by (unfold MAX_VALUE in *; lia).
  destruct (Z.leb_spec (pos + size) (Z.of_nat (length a))); [| lia].
  destruct (Z.leb_spec 0 pos); [| lia]. cbn [andb].
  destruct (Z.ltb_spec pos (pos + size)) as [Hlt | Hge].
  - destruct (Z.to_nat size) as [| n] eqn:En; [lia |].
    replace (Z.to_nat (pos + size - pos)) with (S n) by lia.
    apply doWhile_fold; lia.
  - replace size with 0 by lia. reflexivity.
Qed.

(** *** Sums of partial results *)

Lemma step_isLong (res e : Z) : isLong res -> isLong (step res e).
Proof.
  intros H. unfold CustomCC.step.
  destruct (e <? 150); [apply toLong_range | exact H].
Qed.

Lemma fold_step_isLong (l : list Z) : forall res,
  isLong res -> isLong (fold_left step l res).
Proof.
  induction l as [| e l IH]; intros res H; cbn [fold_left].
  - exact H.
  - apply IH, step_isLong, H.
Qed.

Lemma sequential_isLong (l : list Z) : isLong (sequential l).
Proof. apply fold_step_isLong. unfold isLong. lia. Qed.

Lemma step_shift (res e : Z) :
  forall x, toLong (step res e + x) = toLong (res + step 0 e + x).
Proof.
  intros x. unfold CustomCC.step. destruct (e <? 150).
  - set (d := Z.rem (fnv e) 5).
    rewrite toLong_add_l.
    replace (res + toLong (0 + d) + x) with (toLong (0 + d) + (res + x)) by lia.
    rewrite toLong_add_l. f_equal. lia.
  - f_equal. lia.
Qed.

(** Folding from [res] is folding from zero and adding [res]. *)
Lemma fold_step_shift (l : list Z) : forall res,
  isLong res ->
  fold_left step l res = toLong (res + fold_left step l 0).
Proof.
  induction l as [| e l IH]; intros res H; cbn [fold_left].
  - rewrite Z.add_0_r, toLong_id by exact H. reflexivity.
  - rewrite (IH (step res e)) by (apply step_isLong, H).
    rewrite (IH (step 0 e)) by (apply step_isLong; unfold isLong; lia).
    rewrite toLong_add_r, step_shift. f_equal. lia.
Qed.

(** The sum of the results of two adjacent pieces is the result of the
    whole: [res += sub.res] merges in the order of the array. *)
Lemma sequential_app (l1 l2 : list Z) :
  sequential (l1 ++ l2) = toLong (sequential l1 + sequential l2).
Proof.
  unfold CustomCC.sequential. rewrite fold_left_app.
  apply fold_step_shift, sequential_isLong.
Qed.

Lemma onCompletion_map {X : Type} (f : X -> option Z) (g : X -> Z)
    (subs : list X) : forall res,
  (forall sub, In sub subs -> f sub = Some (g sub)) ->
  onCompletion (map f subs) res =
    Some (fold_left (fun r sub => toLong (r + g sub)) subs res).
Proof.
  induction subs as [| s subs IH]; intros res H; cbn [map onCompletion fold_left].
  - reflexivity.
  - rewrite (H s (or_introl eq_refl)). apply IH.
    intros sub Hsub. apply H. right. exact Hsub.
Qed.

Lemma merge_sequential {X : Type} (c : X -> list Z) (subs : list X) :
  forall own,
  fold_left (fun r sub => toLong (r + sequential (c sub))) subs (sequential own)
  = sequential (own ++ flat_map c subs).
Proof.
  induction subs as [| s subs IH]; intros own; cbn [fold_left flat_map].
  - rewrite app_nil_r. reflexivity.
  - rewrite <- sequential_app, IH, app_assoc. reflexivity.
Qed.

(** *** The forest *)

Lemma covered_app (a : list Z) (r1 r2 : list (Z * Z)) :
  covered a (r1 ++ r2) = covered a r1 ++ covered a r2.
Proof. unfold covered. apply flat_map_app. Qed.

Lemma covered_flat_map {X : Type} (a : list Z) (f : X -> list (Z * Z))
    (l : list X) :
  covered a (flat_map f l) = flat_map (fun x => covered a (f x)) l.
Proof.
  induction l as [| x l IH]; cbn [flat_map].
  - reflexivity.
  - rewrite covered_app, IH. reflexivity.
Qed.

(** A task inside the array completes, and its result is the sequential
    result over the elements its forest covers, read from left to right. *)
Lemma complete_covered (arr : list Z) :
  Z.of_nat (length arr) <= MAX_VALUE ->
  forall (depth : nat) (t : CustomCC),
    inside (Z.of_nat (length arr)) t ->
    (Z.to_nat (pending t) < depth)%nat ->
    complete depth arr t = Some (sequential (covered arr (leafRanges depth t))).
Proof.
  intros Hlen. induction depth as [| depth IH]; intros t Ht Hd; [lia |].
  cbn [CustomCC.complete leafRanges].
  destruct (forks_inside _ t Hlen Ht) as (Hsubs & Hs0 & Hs1).
  destruct (forks t) as [subs size'] eqn:E. cbn [fst snd] in *.
  rewrite leaf_fold by (destruct Ht as (? & ? & ? & ?); lia).
  rewrite (onCompletion_map _
             (fun sub => sequential (covered arr (leafRanges depth sub)))).
  - f_equal. change (fold_left step (slice arr (pos t) size') 0)
      with (sequential (slice arr (pos t) size')).
    rewrite merge_sequential.
    change (covered arr ((pos t, size') :: flat_map (leafRanges depth) subs))
      with (slice arr (pos t) size'
            ++ covered arr (flat_map (leafRanges depth) subs)).
    rewrite covered_flat_map. reflexivity.
  - intros sub Hsub. destruct (Hsubs sub Hsub) as [Hin Hlt].
    apply IH; [exact Hin |].
    destruct Ht as (? & _), Hin as (? & _). lia.
Qed.

Lemma newCustomCC_inside (arr : list Z) :
  0 <= TARGET_LEAVES -> 0 < MIN_SIZE_PER_LEAF ->
  Z.of_nat (length arr) <= MAX_VALUE ->
  inside (Z.of_nat (length arr)) (newCustomCC arr).
Proof.
  intros HT HM Hlen. unfold inside, CustomCC.newCustomCC.
  cbn [pending size pos].
  pose proof (computeInitialPending_nonneg (Z.of_nat (length arr)) HT HM
                ltac:(lia)).
  lia.
Qed.

(** [invoke] returns, and returns the sequential result over the elements
    that the ranges of the splitter cover. *)
Lemma invoke_covered (arr : list Z) :
  0 <= TARGET_LEAVES -> 0 < MIN_SIZE_PER_LEAF ->
  Z.of_nat (length arr) <= MAX_VALUE ->
  invoke arr =
    Some (sequential (covered arr (splitter (Z.of_nat (length arr))))).
Proof.
  intros HT HM Hlen. unfold CustomCC.invoke.
  rewrite complete_covered.
  - reflexivity.
  - exact Hlen.
  - apply newCustomCC_inside; assumption.
  - lia.
Qed.

Lemma forks_pending_0 (t : CustomCC) :
  pending t = 0 -> forks t = ([], size t).
Proof. intros H. unfold forks. rewrite H. reflexivity. Qed.

Lemma slice_all (arr : list Z) : slice arr 0 (Z.of_nat (length arr)) = arr.
Proof.
  unfold slice. rewrite Nat2Z.id. change (Z.to_nat 0) with 0%nat.
  cbn [skipn]. apply firstn_all.
Qed.

(** *** The pending count and a single task *)

(** C3: for an array of N elements, [computeInitialPending] returns the
    floor of the binary logarithm of leaves = min(TARGET_LEAVES,
    floor(N / MIN_SIZE_PER_LEAF)); when leaves is 0 or 1 it returns 0, the
    root forks no sub task, its leaf loop is the only one and runs over
    [0, N), and the result is that of the sequential loop. *)
Theorem computeInitialPending_floor_log2 (N : Z) (arr : list Z) :
  0 <= TARGET_LEAVES -> 0 < MIN_SIZE_PER_LEAF ->
  N = Z.of_nat (length arr) -> N <= MAX_VALUE ->
  let leaves := Z.min TARGET_LEAVES (N / MIN_SIZE_PER_LEAF) in
  computeInitialPending N = Z.log2 leaves /\
  (0 < leaves ->
     2 ^ computeInitialPending N <= leaves
     < 2 ^ (computeInitialPending N + 1)) /\
  (leaves = 0 \/ leaves = 1 ->
     computeInitialPending N = 0 /\
     forked (newCustomCC arr) = [] /\
     splitter N = [(0, N)] /\
     invoke arr = Some (sequential arr)).
Proof.
  intros HT HM HN Hmax leaves.
  assert (Hlog : computeInitialPending N = Z.log2 leaves)
    by (apply computeInitialPending_log2; lia).
  split; [exact Hlog |]. split.
  - intros Hpos. rewrite Hlog.
    destruct (Z.log2_spec leaves Hpos) as [Hlo Hhi].
    rewrite <- Z.add_1_r in Hhi. lia.
  - intros H01.
    assert (H0 : computeInitialPending N = 0)
      by (rewrite Hlog; destruct H01 as [-> | ->]; reflexivity).
    assert (Hsplit : splitter N = [(0, N)]).
    { unfold CustomCC.splitter. cbn [pending]. rewrite H0.
      cbn [leafRanges Z.to_nat Nat.add].
      rewrite forks_pending_0 by reflexivity. reflexivity. }
    repeat split.
    + exact H0.
    + unfold forked. rewrite forks_pending_0; [reflexivity |].
      unfold CustomCC.newCustomCC. cbn [pending]. rewrite <- HN. exact H0.
    + exact Hsplit.
    + rewrite invoke_covered by lia. rewrite <- HN, Hsplit.
      unfold covered. cbn [flat_map fst snd]. rewrite app_nil_r.
      rewrite HN, slice_all. reflexivity.
Qed.

(** C5: on the empty array the root forks no sub task, the guard of the
    leaf loop fails so that its body never runs, and [invoke] returns the
    initial value 0 of the field [res]. *)
Theorem invoke_empty :
  0 <= TARGET_LEAVES -> 0 < MIN_SIZE_PER_LEAF ->
  let root := newCustomCC [] in
  forked root = [] /\
  leafGuard [] (pos root) (snd (forks root)) = false /\
  invoke [] = Some 0.
Proof.
  intros HT HM root.
  assert (H0 : computeInitialPending 0 = 0).
  { unfold CustomCC.computeInitialPending. rewrite Z.quot_0_l by lia.
    rewrite Z.min_r by lia. reflexivity. }
  assert (Hf : forks root = ([], 0)).
  { apply forks_pending_0. exact H0. }
  repeat split.
  - unfold forked. rewrite Hf. reflexivity.
  - rewrite Hf. reflexivity.
  - unfold CustomCC.invoke. fold root.
    replace (pending root) with 0 by (symmetry; exact H0).
    cbn [Z.to_nat CustomCC.complete]. rewrite Hf. reflexivity.
Qed.

(** The fork loop in closed form.  [compute] on a task with pending
    count p forks exactly p sub
    tasks; the j-th of them (from 0) is given the pending count p - 1 - j,
    so the counts descend from p - 1 to 0; every fork halves the field
    [size] (rounding down), the sub task is given the range of that
    length which starts where the shortened range of the task ends, and
    the task keeps the front; after the loop the task runs its leaf loop
    over what is left of its range. *)
Theorem compute_forks (arr : list Z) (t : CustomCC) :
  Z.of_nat (length arr) <= MAX_VALUE ->
  inside (Z.of_nat (length arr)) t ->
  let p := Z.to_nat (pending t) in
  let remaining (j : nat) := size t / 2 ^ Z.of_nat j in
  length (forked t) = p /\
  forked t = map (fun j => mkCustomCC (remaining (S j))
                                      (pos t + remaining (S j))
                                      (pending t - 1 - Z.of_nat j))
                 (seq 0 p) /\
  map pending (forked t) = map (fun j => pending t - 1 - Z.of_nat j) (seq 0 p) /\
  (forall j, remaining (S j) = remaining j / 2) /\
  snd (forks t) = remaining p /\
  leaf arr (pos t) (remaining p) 0
    = Some (sequential (slice arr (pos t) (remaining p))).
Proof.
  intros Hlen Ht p remaining.
  pose proof (forks_inside _ t Hlen Ht) as (_ & Hs0 & Hs1).
  destruct Ht as (Hp & Hs & Hpos & Hin).
  assert (Hforks : forks t = forkLoop p (size t) (pos t)) by reflexivity.
  rewrite forkLoop_closed in Hforks by lia.
  assert (Hforked :
    forked t = map (fun j => mkCustomCC (remaining (S j))
                                        (pos t + remaining (S j))
                                        (pending t - 1 - Z.of_nat j))
                   (seq 0 p)).
  { unfold forked. rewrite Hforks. cbn [fst].
    rewrite <- map_rev, rev_seq, map_map.
    apply map_ext_in. intros j Hj. apply in_seq in Hj. unfold remaining.
    replace (Z.of_nat p - Z.of_nat (p - 1 - j)) with (Z.of_nat (S j)) by lia.
    replace (Z.of_nat (p - 1 - j)) with (pending t - 1 - Z.of_nat j) by lia.
    reflexivity. }
  assert (Hsnd : snd (forks t) = remaining p)
    by (rewrite Hforks; reflexivity).
  repeat split.
  - rewrite Hforked, length_map, length_seq. reflexivity.
  - exact Hforked.
  - rewrite Hforked, map_map. reflexivity.
  - intros j. unfold remaining.
    replace (Z.of_nat (S j)) with (Z.of_nat j + 1) by lia.
    rewrite Z.pow_add_r by lia. change (2 ^ 1) with 2.
    rewrite <- Z.div_div by (try apply Z.pow_pos_nonneg; lia).
    reflexivity.
  - exact Hsnd.
  - rewrite <- Hsnd. apply leaf_fold; lia.
Qed.

(** *** The shape of the forest

    A task with pending count p + 1 behaves like two tasks with pending
    count p, one on each rounded-down half of its range. *)

Lemma flat_map_ext_in {X Y : Type} (f g : X -> list Y) (l : list X) :
  (forall x, In x l -> f x = g x) -> flat_map f l = flat_map g l.
Proof.
  induction l as [| x l IH]; intros H; cbn [flat_map].
  - reflexivity.
  - rewrite (H x (or_introl eq_refl)), IH; [reflexivity |].
    intros y Hy. apply H. right. exact Hy.
Qed.

Lemma leafRanges_depth (len : Z) :
  len <= MAX_VALUE ->
  forall (d1 d2 : nat) (t : CustomCC),
    inside len t ->
    (Z.to_nat (pending t) < d1)%nat -> (Z.to_nat (pending t) < d2)%nat ->
    leafRanges d1 t = leafRanges d2 t.
Proof.
  intros Hlen. induction d1 as [| d1 IH]; intros [| d2] t Ht H1 H2; try lia.
  cbn [leafRanges].
  destruct (forks_inside _ t Hlen Ht) as (Hsubs & _).
  destruct (forks t) as [subs size']. cbn [fst] in Hsubs.
  f_equal. apply flat_map_ext_in. intros sub Hsub.
  destruct (Hsubs sub Hsub) as [Hin Hlt].
  destruct Ht as (? & _). pose proof Hin as (? & _).
  apply IH; [exact Hin | lia | lia].
Qed.

Lemma leafRanges_S (d : nat) (t : CustomCC) :
  leafRanges (S d) t =
    (pos t, snd (forks t)) :: flat_map (leafRanges d) (fst (forks t)).
Proof. cbn [leafRanges]. destruct (forks t). reflexivity. Qed.

Lemma forks_S (p : nat) (size pos : Z) :
  0 <= size -> 0 <= pos -> pos + size <= MAX_VALUE ->
  forks (mkCustomCC size pos (Z.of_nat (S p))) =
    (fst (forks (mkCustomCC (size / 2) pos (Z.of_nat p)))
       ++ [mkCustomCC (size / 2) (pos + size / 2) (Z.of_nat p)],
     snd (forks (mkCustomCC (size / 2) pos (Z.of_nat p)))).
Proof.
  intros Hs Hpos Hin.
  destruct (div_pow2_bounds size 1 Hs ltac:(lia)) as [Hh0 Hh1].
  change (2 ^ 1) with 2 in Hh0, Hh1.
  unfold forks. cbn [pending CustomCC.size CustomCC.pos].
  rewrite !Nat2Z.id. cbn [forkLoop].
  rewrite ushr_1_half by (unfold MAX_VALUE in *; lia).
  rewrite toInt_id by (unfold MAX_VALUE in *; lia).
  destruct (forkLoop p (size / 2) pos). reflexivity.
Qed.

Lemma leafRanges_halves (len : Z) (p : nat) (size pos : Z) :
  len <= MAX_VALUE -> 0 <= size -> 0 <= pos -> pos + size <= len ->
  leafRanges (S (S p)) (mkCustomCC size pos (Z.of_nat (S p))) =
    leafRanges (S p) (mkCustomCC (size / 2) pos (Z.of_nat p))
    ++ leafRanges (S p) (mkCustomCC (size / 2) (pos + size / 2) (Z.of_nat p)).
Proof.
  intros Hlen Hs Hpos Hin.
  destruct (div_pow2_bounds size 1 Hs ltac:(lia)) as [Hh0 Hh1].
  change (2 ^ 1) with 2 in Hh0, Hh1.
  assert (Ht : inside len (mkCustomCC (size / 2) pos (Z.of_nat p)))
    by (unfold inside; cbn [pending CustomCC.size CustomCC.pos]; lia).
  pose proof (forks_inside _ _ Hlen Ht) as (Hsubs & _).
  rewrite (leafRanges_S (S p)), forks_S by lia.
  rewrite (leafRanges_S p (mkCustomCC (size / 2) pos (Z.of_nat p))).
  cbn [fst snd CustomCC.pos].
  rewrite flat_map_app. cbn [flat_map]. rewrite app_nil_r.
  cbn [app]. f_equal. f_equal.
  apply flat_map_ext_in. intros sub Hsub.
  destruct (Hsubs sub Hsub) as [Hi Hlt]. cbn [pending] in Hlt.
  pose proof Hi as (? & _).
  apply (leafRanges_depth len Hlen); [exact Hi | lia | lia].
Qed.

Lemma totalLength_app (r1 r2 : list (Z * Z)) :
  totalLength (r1 ++ r2) = totalLength r1 + totalLength r2.
Proof.
  unfold totalLength. rewrite map_app.
  induction (map snd r1) as [| x l IH]; cbn [app fold_right]; lia.
Qed.

Lemma tiles_app (r1 r2 : list (Z * Z)) : forall lo mid hi,
  tiles lo mid r1 -> tiles mid hi r2 -> tiles lo hi (r1 ++ r2).
Proof.
  induction r1 as [| r r1 IH]; intros lo mid hi H1 H2; cbn [app tiles] in *.
  - subst mid. exact H2.
  - destruct H1 as (Hf & Hs & H1). repeat split; try assumption.
    apply (IH _ mid); assumption.
Qed.

Lemma tiles_totalLength (r : list (Z * Z)) : forall lo hi,
  tiles lo hi r -> totalLength r = hi - lo.
Proof.
  induction r as [| x r IH]; intros lo hi H; cbn [tiles] in H.
  - unfold totalLength. cbn. lia.
  - destruct H as (Hf & Hs & H). apply IH in H.
    unfold totalLength in *. cbn [map fold_right]. lia.
Qed.

Lemma slice_adjacent (a : list Z) (pos s1 s2 : Z) :
  0 <= pos -> 0 <= s1 -> 0 <= s2 ->
  slice a pos s1 ++ slice a (pos + s1) s2 = slice a pos (s1 + s2).
Proof.
  intros Hp H1 H2. unfold slice.
  replace (Z.to_nat (pos + s1)) with (Z.to_nat s1 + Z.to_nat pos)%nat by lia.
  replace (Z.to_nat (s1 + s2)) with (Z.to_nat s1 + Z.to_nat s2)%nat by lia.
  rewrite <- skipn_skipn.
  generalize (skipn (Z.to_nat pos) a) as l.
  generalize (Z.to_nat s1) as n. generalize (Z.to_nat s2) as m.
  intros m n. induction n as [| n IH]; intros l.
  - reflexivity.
  - destruct l as [| x l].
    + cbn [Nat.add skipn firstn]. rewrite firstn_nil. reflexivity.
    + cbn [Nat.add skipn firstn app]. rewrite IH. reflexivity.
Qed.

(** Every leaf range of a task with pending count p has the length
    floor(size / 2^p), and there are 2^p of them. *)
Lemma totalLength_leafRanges (len : Z) (p : nat) : forall size pos,
  len <= MAX_VALUE -> 0 <= size -> 0 <= pos -> pos + size <= len ->
  totalLength (leafRanges (S p) (mkCustomCC size pos (Z.of_nat p)))
  = 2 ^ Z.of_nat p * (size / 2 ^ Z.of_nat p).
Proof.
  induction p as [| p IH]; intros size pos Hlen Hs Hpos Hin.
  - cbn [leafRanges]. rewrite forks_pending_0 by reflexivity.
    unfold totalLength. cbn [flat_map map snd fold_right CustomCC.size].
    cbn [Z.of_nat]. rewrite Z.pow_0_r, Z.div_1_r. lia.
  - rewrite (leafRanges_halves len) by assumption.
    destruct (div_pow2_bounds size 1 Hs ltac:(lia)) as [Hh0 Hh1].
    change (2 ^ 1) with 2 in Hh0, Hh1.
    rewrite totalLength_app, !IH by lia.
    rewrite div2_div_pow2 by lia.
    replace (Z.of_nat (S p)) with (Z.of_nat p + 1) by lia.
    rewrite (Z.pow_add_r 2 (Z.of_nat p) 1) by lia.
    change (2 ^ 1) with 2. lia.
Qed.

(** When 2^p divides the length of its range, the leaf ranges of a task
    follow each other without gap or overlap over the whole range. *)
Lemma tiles_leafRanges (len : Z) (p : nat) : forall size pos,
  len <= MAX_VALUE -> 0 <= size -> 0 <= pos -> pos + size <= len ->
  size mod 2 ^ Z.of_nat p = 0 ->
  tiles pos (pos + size) (leafRanges (S p) (mkCustomCC size pos (Z.of_nat p))).
Proof.
  induction p as [| p IH]; intros size pos Hlen Hs Hpos Hin Hdiv.
  - cbn [leafRanges]. rewrite forks_pending_0 by reflexivity.
    cbn [flat_map tiles fst snd CustomCC.pos CustomCC.size]. lia.
  - rewrite (leafRanges_halves len) by assumption.
    replace (Z.of_nat (S p)) with (Z.of_nat p + 1) in Hdiv by lia.
    rewrite Z.pow_add_r in Hdiv by lia. change (2 ^ 1) with 2 in Hdiv.
    assert (H2p : 0 < 2 ^ Z.of_nat p) by (apply Z.pow_pos_nonneg; lia).
    apply Z.mod_divide in Hdiv; [| lia]. destruct Hdiv as [q Hq].
    assert (Hhalf : size / 2 = q * 2 ^ Z.of_nat p).
    { subst size. replace (q * (2 ^ Z.of_nat p * 2))
        with (q * 2 ^ Z.of_nat p * 2) by lia.
      apply Z.div_mul. lia. }
    assert (Hsize : size = size / 2 + size / 2) by lia.
    assert (Hmod : (size / 2) mod 2 ^ Z.of_nat p = 0)
      by (rewrite Hhalf; apply Z.mod_mul; lia).
    assert (0 <= size / 2) by lia.
    apply (tiles_app _ _ pos (pos + size / 2) (pos + size)).
    + apply IH; lia.
    + replace (pos + size) with (pos + size / 2 + size / 2) by lia.
      apply IH; lia.
Qed.

Lemma tiles_le (r : list (Z * Z)) : forall lo hi, tiles lo hi r -> lo <= hi.
Proof.
  induction r as [| x r IH]; intros lo hi H; cbn [tiles] in H.
  - lia.
  - destruct H as (_ & Hs & H). apply IH in H. lia.
Qed.

(** Ranges that tile an interval cover its elements, in order. *)
Lemma covered_tiles (a : list Z) (r : list (Z * Z)) : forall lo hi,
  0 <= lo -> tiles lo hi r -> covered a r = slice a lo (hi - lo).
Proof.
  induction r as [| x r IH]; intros lo hi Hlo H; cbn [tiles] in H.
  - subst hi. rewrite Z.sub_diag. reflexivity.
  - destruct H as (Hf & Hs & H).
    change (covered a (x :: r)) with (slice a (fst x) (snd x) ++ covered a r).
    pose proof (tiles_le _ _ _ H) as Hle.
    rewrite (IH (lo + snd x) hi ltac:(lia) H), Hf, slice_adjacent by lia.
    f_equal. lia.
Qed.

Lemma splitter_root (N : Z) :
  0 <= TARGET_LEAVES -> 0 < MIN_SIZE_PER_LEAF -> 0 <= N <= MAX_VALUE ->
  splitter N =
    leafRanges (S (Z.to_nat (computeInitialPending N)))
      (mkCustomCC N 0 (Z.of_nat (Z.to_nat (computeInitialPending N)))).
Proof.
  intros HT HM HN. unfold CustomCC.splitter. cbn [pending].
  rewrite Z2Nat.id by (apply computeInitialPending_nonneg; assumption).
  reflexivity.
Qed.

(** The leaf ranges of the splitter have the total length
    N - N mod 2^pending: they miss N mod 2^pending indices. *)
Lemma splitter_totalLength (N : Z) :
  0 <= TARGET_LEAVES -> 0 < MIN_SIZE_PER_LEAF -> 0 <= N <= MAX_VALUE ->
  totalLength (splitter N) = N - N mod 2 ^ computeInitialPending N.
Proof.
  intros HT HM HN.
  pose proof (computeInitialPending_nonneg N HT HM HN) as Hp.
  rewrite splitter_root by assumption.
  rewrite (totalLength_leafRanges N) by lia.
  rewrite Z2Nat.id by exact Hp.
  rewrite Z.mod_eq by (apply Z.pow_nonzero; lia). lia.
Qed.

(** When 2^pending divides N the leaf ranges of the splitter cover [0, N)
    exactly. *)
Lemma splitter_tiles (N : Z) :
  0 <= TARGET_LEAVES -> 0 < MIN_SIZE_PER_LEAF -> 0 <= N <= MAX_VALUE ->
  N mod 2 ^ computeInitialPending N = 0 ->
  tiles 0 N (splitter N).
Proof.
  intros HT HM HN Hdiv.
  pose proof (computeInitialPending_nonneg N HT HM HN) as Hp.
  rewrite splitter_root by assumption.
  apply (tiles_leafRanges N _ N 0); try lia.
  rewrite Z2Nat.id by exact Hp. exact Hdiv.
Qed.

(** When 2^pending divides the length of the array the forest returns the
    result of the sequential loop. *)
Lemma invoke_sequential (arr : list Z) :
  0 <= TARGET_LEAVES -> 0 < MIN_SIZE_PER_LEAF ->
  Z.of_nat (length arr) <= MAX_VALUE ->
  Z.of_nat (length arr)
    mod 2 ^ computeInitialPending (Z.of_nat (length arr)) = 0 ->
  invoke arr = Some (sequential arr).
Proof.
  intros HT HM Hlen Hdiv.
  rewrite invoke_covered by assumption.
  rewrite (covered_tiles arr _ 0 (Z.of_nat (length arr))).
  - rewrite Z.sub_0_r, slice_all. reflexivity.
  - lia.
  - apply splitter_tiles; try assumption. lia.
Qed.

Lemma splitter_tiles_iff (N : Z) :
  0 <= TARGET_LEAVES -> 0 < MIN_SIZE_PER_LEAF -> 0 <= N <= MAX_VALUE ->
  tiles 0 N (splitter N) <-> N mod 2 ^ computeInitialPending N = 0.
Proof.
  intros HT HM HN. split.
  - intros H. apply tiles_totalLength in H.
    rewrite splitter_totalLength in H by assumption. lia.
  - apply splitter_tiles; assumption.
Qed.

Lemma toLong_add_neq (x d : Z) :
  isLong x -> d <> 0 -> - 2 ^ 64 < d < 2 ^ 64 -> toLong (x + d) <> x.
Proof.
  unfold isLong, toLong. intros Hx Hd Hb H.
  pose proof (Z.div_mod (x + d + 2 ^ 63) (2 ^ 64) ltac:(lia)) as E.
  assert (Hq : 2 ^ 64 * ((x + d + 2 ^ 63) / 2 ^ 64) = d) by lia.
  assert ((x + d + 2 ^ 63) / 2 ^ 64 = 0) by lia.
  lia.
Qed.

(** An element that passes the filter with a non-zero summand changes the
    sequential result. *)
Lemma sequential_snoc_neq (arr : list Z) (e : Z) :
  e < 150 -> Z.rem (fnv e) 5 <> 0 ->
  sequential (arr ++ [e]) <> sequential arr.
Proof.
  intros He Hd. unfold CustomCC.sequential. rewrite fold_left_app.
  cbn [fold_left]. unfold CustomCC.step at 1.
  destruct (Z.ltb_spec e 150); [| lia].
  apply toLong_add_neq.
  - apply sequential_isLong.
  - exact Hd.
  - pose proof (Z.rem_bound_abs (fnv e) 5 ltac:(lia)). lia.
Qed.

End Facts.


(** *** The post's constants on an array of 20001 elements *)

Lemma post_TARGET_LEAVES_times_4 (availableProcessors : Z) :
  1 <= availableProcessors < 2 ^ 29 ->
  post_TARGET_LEAVES availableProcessors = 4 * availableProcessors.
Proof. intros H. apply shl_2_times_4. lia. Qed.

Lemma post_computeInitialPending_20001 (availableProcessors : Z) :
  1 <= availableProcessors < 2 ^ 29 ->
  computeInitialPending (post_TARGET_LEAVES availableProcessors)
                        post_MIN_SIZE_PER_LEAF 20001 = 1.
Proof.
  intros H. rewrite post_TARGET_LEAVES_times_4 by exact H.
  rewrite computeInitialPending_log2
    by (unfold post_MIN_SIZE_PER_LEAF, MAX_VALUE; lia).
  change (20001 / post_MIN_SIZE_PER_LEAF) with 2.
  rewrite Z.min_r by lia. reflexivity.
Qed.

Lemma post_splitter_20001 (availableProcessors : Z) :
  1 <= availableProcessors < 2 ^ 29 ->
  splitter (post_TARGET_LEAVES availableProcessors) post_MIN_SIZE_PER_LEAF
           20001
  = [(0, 10000); (10000, 10000)].
Proof.
  intros H. unfold splitter. cbn [pending].
  rewrite post_computeInitialPending_20001 by exact H.
  vm_compute. reflexivity.
Qed.

(** C2, at an array of 20001 elements with the constants of the post: the
    root forks one sub task, the two leaf ranges are [0, 10000) and
    [10000, 20000), their lengths add up to 20000, and index 20000 lies in
    neither of them. *)
Theorem splitter_misses_last_index (availableProcessors : Z) :
  1 <= availableProcessors < 2 ^ 29 ->
  let ranges :=
    splitter (post_TARGET_LEAVES availableProcessors) post_MIN_SIZE_PER_LEAF
             20001 in
  ranges = [(0, 10000); (10000, 10000)] /\
  totalLength ranges = 20000 /\
  (forall r, In r ranges -> ~ inRange 20000 r) /\
  ~ tiles 0 20001 ranges.
Proof.
  intros H ranges. unfold ranges.
  rewrite post_splitter_20001 by exact H.
  split; [reflexivity |]. split; [reflexivity |]. split.
  - intros r [<- | [<- | []]]; unfold inRange; cbn [fst snd]; lia.
  - cbn [tiles fst snd]. lia.
Qed.

(** C1, at an array of 20001 elements with the constants of the post:
    [invoke] returns the sequential result of the first 20000 elements, and
    this is not the sequential result of the whole array when the last
    element passes the filter with a non-zero summand. *)
Theorem invoke_misses_last_element (availableProcessors : Z) (fnv : Z -> Z)
    (arr : list Z) (e : Z) :
  1 <= availableProcessors < 2 ^ 29 ->
  Z.of_nat (length arr) = 20000 ->
  e < 150 -> Z.rem (fnv e) 5 <> 0 ->
  invoke (post_TARGET_LEAVES availableProcessors) post_MIN_SIZE_PER_LEAF fnv
         (arr ++ [e])
  = Some (sequential fnv arr) /\
  sequential fnv arr <> sequential fnv (arr ++ [e]).
Proof.
  intros H Hlen He Hd. split.
  - assert (HN : Z.of_nat (length (arr ++ [e])) = 20001)
      by (rewrite length_app; cbn [length]; lia).
    rewrite invoke_covered;
      [| rewrite post_TARGET_LEAVES_times_4 by exact H; lia
       | unfold post_MIN_SIZE_PER_LEAF; lia
       | rewrite HN; unfold MAX_VALUE; lia ].
    rewrite HN, post_splitter_20001 by exact H.
    unfold covered. cbn [flat_map fst snd]. rewrite app_nil_r.
    change (slice (arr ++ [e]) 10000 10000)
      with (slice (arr ++ [e]) (0 + 10000) 10000).
    rewrite slice_adjacent by lia.
    unfold slice. change (Z.to_nat 0) with 0%nat. cbn [skipn].
    replace (Z.to_nat (10000 + 10000)) with (length arr) by lia.
    rewrite firstn_app, firstn_all, Nat.sub_diag. cbn [firstn].
    rewrite app_nil_r. reflexivity.
  - intros E. apply (sequential_snoc_neq fnv arr e He Hd). symmetry. exact E.
Qed.


(** The array of 1000 elements with 250 elements per leaf that the post
    draws: four leaf ranges of 250 elements. *)
Example splitter_1000_by_250 :
  splitter 16 250 1000 = [(0, 250); (250, 250); (500, 250); (750, 250)].
Proof. vm_compute. reflexivity. Qed.

(** Six elements split twice: indices 2 and 5 are in no leaf range, and
    the elements at these indices are missing from the result. *)
Example splitter_6_by_1 :
  splitter 16 1 6 = [(0, 1); (1, 1); (3, 1); (4, 1)].
Proof. vm_compute. reflexivity. Qed.

Example invoke_6_by_1 :
  invoke 16 1 fnv1a [1; 2; 3; 4; 5; 6] = Some (sequential fnv1a [1; 2; 4; 5])
  /\ sequential fnv1a [1; 2; 4; 5] = -11
  /\ sequential fnv1a [1; 2; 3; 4; 5; 6] = -16.
Proof. vm_compute. repeat split. Qed.

(** *** Instances *)

Lemma computeInitialPending_floor_log2_witness :
  let T := post_TARGET_LEAVES 4 in
  let M := post_MIN_SIZE_PER_LEAF in
  (0 <= T /\ 0 < M /\ 3 = Z.of_nat (length [1; 2; 3]) /\ 3 <= MAX_VALUE) /\
  computeInitialPending T M 3 = Z.log2 (Z.min T (3 / M)) /\
  splitter T M 3 = [(0, 3)] /\
  invoke T M fnv1a [1; 2; 3] = Some (sequential fnv1a [1; 2; 3]).
Proof.
  intros T M.
  assert (H1 : 0 <= T) by (vm_compute; discriminate).
  assert (H2 : 0 < M) by reflexivity.
  assert (H3 : 3 = Z.of_nat (length [1; 2; 3])) by reflexivity.
  assert (H4 : 3 <= MAX_VALUE) by (vm_compute; discriminate).
  destruct (computeInitialPending_floor_log2 T M fnv1a 3 [1; 2; 3]
              H1 H2 H3 H4) as (Ha & _ & Hc).
  destruct (Hc (or_introl eq_refl)) as (_ & _ & Hs & Hi).
  split; [exact (conj H1 (conj H2 (conj H3 H4))) |].
  split; [exact Ha |]. split; [exact Hs | exact Hi].
Defined.

Lemma invoke_empty_witness :
  let T := post_TARGET_LEAVES 4 in
  let M := post_MIN_SIZE_PER_LEAF in
  (0 <= T /\ 0 < M) /\
  forked (newCustomCC T M []) = [] /\
  invoke T M fnv1a [] = Some 0.
Proof.
  intros T M.
  assert (H1 : 0 <= T) by (vm_compute; discriminate).
  assert (H2 : 0 < M) by reflexivity.
  destruct (invoke_empty T M fnv1a H1 H2) as (Ha & _ & Hc).
  split; [exact (conj H1 H2) |]. split; [exact Ha | exact Hc].
Defined.

Lemma compute_forks_witness :
  let arr := [1; 2; 3; 4; 5; 6; 7; 8] in
  let t := mkCustomCC 8 0 2 in
  (Z.of_nat (length arr) <= MAX_VALUE /\ inside (Z.of_nat (length arr)) t) /\
  forked t = [mkCustomCC 4 4 1; mkCustomCC 2 2 0] /\
  snd (forks t) = 2 /\
  leaf fnv1a arr 0 2 0 = Some (sequential fnv1a [1; 2]).
Proof.
  intros arr t.
  assert (H1 : Z.of_nat (length arr) <= MAX_VALUE) by (vm_compute; discriminate).
  assert (H2 : inside (Z.of_nat (length arr)) t)
    by (unfold inside; cbn; lia).
  destruct (compute_forks fnv1a arr t H1 H2) as (_ & Hb & _ & _ & Hd & He).
  split; [split; assumption |].
  split; [exact Hb |]. split; [exact Hd | exact He].
Defined.

Lemma splitter_misses_last_index_witness :
  1 <= 4 < 2 ^ 29 /\
  splitter (post_TARGET_LEAVES 4) post_MIN_SIZE_PER_LEAF 20001
  = [(0, 10000); (10000, 10000)] /\
  ~ tiles 0 20001
      (splitter (post_TARGET_LEAVES 4) post_MIN_SIZE_PER_LEAF 20001).
Proof.
  assert (H : 1 <= 4 < 2 ^ 29) by lia.
  destruct (splitter_misses_last_index 4 H) as (Ha & _ & _ & Hd).
  split; [exact H |]. split; [exact Ha | exact Hd].
Defined.

Lemma invoke_misses_last_element_witness :
  let arr := repeat 1 (Z.to_nat 20000) in
  (1 <= 4 < 2 ^ 29 /\ Z.of_nat (length arr) = 20000 /\ 1 < 150
   /\ Z.rem (fnv1a 1) 5 <> 0) /\
  invoke (post_TARGET_LEAVES 4) post_MIN_SIZE_PER_LEAF fnv1a (arr ++ [1])
  = Some (sequential fnv1a arr) /\
  sequential fnv1a arr <> sequential fnv1a (arr ++ [1]).
Proof.
  intros arr.
  assert (H1 : 1 <= 4 < 2 ^ 29) by lia.
  assert (H2 : Z.of_nat (length arr) = 20000)
    by (unfold arr; rewrite repeat_length; lia).
  assert (H3 : 1 < 150) by lia.
  assert (H4 : Z.rem (fnv1a 1) 5 <> 0) by (vm_compute; discriminate).
  destruct (invoke_misses_last_element 4 fnv1a arr 1 H1 H2 H3 H4) as (Ha & Hb).
  split; [exact (conj H1 (conj H2 (conj H3 H4))) |].
  split; [exact Ha | exact Hb].
Defined.

End CustomCCFacts.

(** ** The presizing changeset *)

Module PresizingFacts.
Import JavaInt JavaIntFacts Collector Collectors ReduceOps ReferencePipeline.

Lemma contains_In (cs : list Characteristics) (x : Characteristics) :
  contains cs x = true <-> In x cs.
Proof.
  unfold contains. rewrite existsb_exists. split.
  - intros (y & Hy & E). destruct x, y; try discriminate; exact Hy.
  - intros H. exists x. split; [exact H | destruct x; reflexivity].
Qed.

(** C10: a collector that was given no sized supplier (made by one of the
    two [Collector.of] factories without a sized supplier, by one of the
    two [CollectorImpl] constructors without a sized supplier, or by a
    class that inherits the default method) has a [sizedSupplier] that
    ignores the capacity: at any two capacities it does what [supplier]
    does, which is what the supplier it was given does. *)
Theorem sizedSupplier_default_ignores_capacity {T A R : Type}
    (supplier0 : unit -> Exc A) (accumulator0 : A -> T -> A)
    (combiner0 : A -> A -> A) (finisher0 : A -> R)
    (characteristics0 : list Characteristics) (i : Implementation T A R) :
  let c1 := of_supplier supplier0 accumulator0 combiner0 characteristics0 in
  let c2 := of_supplier_finisher supplier0 accumulator0 combiner0 finisher0
                                 characteristics0 in
  let c3 := CollectorImpl supplier0 accumulator0 combiner0 characteristics0 in
  let c4 := CollectorImpl_finisher supplier0 accumulator0 combiner0 finisher0
                                   characteristics0 in
  let c5 := inherit i in
  (ignoresCapacity c1 /\ supplier c1 tt = supplier0 tt) /\
  (ignoresCapacity c2 /\ supplier c2 tt = supplier0 tt) /\
  (ignoresCapacity c3 /\ supplier c3 tt = supplier0 tt) /\
  (ignoresCapacity c4 /\ supplier c4 tt = supplier0 tt) /\
  (ignoresCapacity c5 /\ supplier c5 tt = impl_supplier i tt).
Proof.
  cbv zeta. unfold ignoresCapacity.
  repeat split; reflexivity.
Qed.

(** The sized supplier of [toList] does use the capacity. *)
Lemma toList_uses_capacity :
  sizedSupplier (@toList Z) 5 <> supplier (@toList Z) tt /\
  sizedSupplier (@toList Z) 5 <> sizedSupplier (@toList Z) 6.
Proof. split; intros H; discriminate H. Qed.

(** C7: [ReducingSink.begin] allocates the container with [supplier]
    when the size is -1 and with [sizedSupplier], at the size cast to
    [int], in every other case; the cast changes nothing for a size
    between 0 and Integer.MAX_VALUE.  On the recording collector the
    container is allocated by [supplier] exactly when the size is -1. *)
Theorem begin_allocation {T I R : Type} (collector : Collector T I R)
    (size : Z) (sink : Box I) :
  let stored (m : Exc I) := bind m (fun s => Return (mkBox (Some s))) in
  (size = -1 -> begin collector size sink = stored (supplier collector tt)) /\
  (size <> -1 ->
     begin collector size sink
     = stored (sizedSupplier collector (toInt size))) /\
  (0 <= size <= MAX_VALUE ->
     begin collector size sink = stored (sizedSupplier collector size)) /\
  (begin recording size (mkBox None) = Return (mkBox (Some ByNew))
     <-> size = -1) /\
  (size <> -1 ->
     begin recording size (mkBox None)
     = Return (mkBox (Some (BySizedNew (toInt size))))).
Proof.
  cbv zeta. unfold begin.
  destruct (Z.eqb_spec size (-1)) as [E | E].
  - repeat split; try reflexivity; try (intros; lia).
  - repeat split; try reflexivity; try (intros; lia).
    + intros H. rewrite toInt_id by (unfold MAX_VALUE in *; lia).
      reflexivity.
    + intros H. discriminate H.
Qed.

(** C6: [collect] hands the pipeline an UnorderedConcurrentCollectorOp
    if and only if the pipeline is parallel, the collector is CONCURRENT,
    and the pipeline is not ordered or the collector is UNORDERED; in
    every other case it hands it [ReduceOps.makeRef].  The shared
    container of the UnorderedConcurrentCollectorOp is allocated with
    [sizedSupplier], at the exact size cast to [int], when the size is
    known, and with [supplier] when it is reported as -1; the ForEachTask
    then works on this one container, and the combiner plays no part. *)
Theorem collect_strategy {T A R : Type} (p : Pipeline)
    (collector : Collector T A R) (size : Z) (forEachTask : A -> Exc A) :
  let shared :=
    isParallel p = true /\
    contains (characteristics collector) CONCURRENT = true /\
    (isOrdered p = false \/
     contains (characteristics collector) UNORDERED = true) in
  (collect_op p collector = UnorderedConcurrentCollectorOp collector
     <-> shared) /\
  (~ shared -> collect_op p collector = makeRef collector) /\
  (size <> -1 ->
     evaluateParallel_res collector size
     = sizedSupplier collector (toInt size)) /\
  (0 <= size <= MAX_VALUE ->
     evaluateParallel_res collector size = sizedSupplier collector size) /\
  (size = -1 ->
     evaluateParallel_res collector size = supplier collector tt) /\
  evaluateParallel collector size forEachTask
    = bind (evaluateParallel_res collector size) forEachTask /\
  (forall combiner',
     evaluateParallel (withCombiner collector combiner') size forEachTask
     = evaluateParallel collector size forEachTask).
Proof.
  cbv zeta. unfold collect_op, evaluateParallel, evaluateParallel_res.
  split; [| split; [| repeat split]].
  - destruct (isParallel p), (contains (characteristics collector) CONCURRENT),
      (isOrdered p), (contains (characteristics collector) UNORDERED);
      cbn; split; intros H; try discriminate H; try reflexivity;
      try (repeat split; auto; fail);
      try (destruct H as (H1 & H2 & [H3 | H3]); discriminate).
  - destruct (isParallel p), (contains (characteristics collector) CONCURRENT),
      (isOrdered p), (contains (characteristics collector) UNORDERED);
      cbn; intros H; try reflexivity; exfalso; apply H; auto.
  - intros H. destruct (Z.eqb_spec size (-1)); [lia | reflexivity].
  - intros H. destruct (Z.eqb_spec size (-1)); [lia |]. cbn [negb].
    rewrite toInt_id by (unfold MAX_VALUE in *; lia). reflexivity.
  - intros ->. reflexivity.
Qed.

(** C8, as the code has it: when the sized supplier throws at the size
    cast to [int], [begin] and [evaluateParallel] throw the same
    exception; there is no fall back to [supplier], which is called at
    the size -1 only: at the size in question the recording collector
    shows an allocation by the sized supplier. *)
Theorem capacity_failure_propagates {T A R : Type}
    (collector : Collector T A R) (size : Z) (e : Throwable)
    (sink : Box A) (forEachTask : A -> Exc A) :
  size <> -1 ->
  sizedSupplier collector (toInt size) = Throw e ->
  begin collector size sink = Throw e /\
  evaluateParallel_res collector size = Throw e /\
  evaluateParallel collector size forEachTask = Throw e /\
  begin recording size (mkBox None)
  = Return (mkBox (Some (BySizedNew (toInt size)))) /\
  evaluateParallel_res recording size = Return (BySizedNew (toInt size)).
Proof.
  intros Hs He. unfold begin, evaluateParallel, evaluateParallel_res.
  destruct (Z.eqb_spec size (-1)); [lia |]. cbn [negb].
  rewrite He. repeat split.
Qed.

(** A stream of 2^31 elements collected with [toList]: the capacity is
    negative after the cast, [ArrayList(int)] throws, and [begin] throws
    where the supplier would have returned a list. *)
Lemma begin_toList_capacity_overflow :
  sizedSupplier (@toList Z) (toInt (2 ^ 31)) = Throw IllegalArgumentException /\
  supplier (@toList Z) tt = Return (mkArrayList 10 []) /\
  begin (@toList Z) (2 ^ 31) (mkBox None) = Throw IllegalArgumentException /\
  begin (@toList Z) (2 ^ 31) (mkBox None)
    <> bind (supplier (@toList Z) tt) (fun s => Return (mkBox (Some s))) /\
  evaluateParallel_res (@toList Z) (2 ^ 31) = Throw IllegalArgumentException.
Proof.
  repeat split; try reflexivity. intros H. discriminate H.
Qed.


Lemma capacity_failure_propagates_witness :
  (2 ^ 31 <> -1 /\
   sizedSupplier (@toList Z) (toInt (2 ^ 31)) = Throw IllegalArgumentException) /\
  begin (@toList Z) (2 ^ 31) (mkBox None) = Throw IllegalArgumentException /\
  evaluateParallel (@toList Z) (2 ^ 31) Return = Throw IllegalArgumentException.
Proof.
  assert (H1 : 2 ^ 31 <> -1) by lia.
  assert (H2 : sizedSupplier (@toList Z) (toInt (2 ^ 31))
               = Throw IllegalArgumentException) by reflexivity.
  destruct (capacity_failure_propagates (@toList Z) (2 ^ 31)
              IllegalArgumentException (mkBox None) Return H1 H2)
    as (Ha & _ & Hc & _).
  repeat split; assumption.
Defined.

End PresizingFacts.

(** ** More on the task forest of CustomCC *)

Module ForestFacts.
Import JavaInt JavaIntFacts CustomCC CustomCCFacts Coverage.

Section Facts.

Variables TARGET_LEAVES MIN_SIZE_PER_LEAF : Z.
Variable fnv : Z -> Z.

Local Abbreviation computeInitialPending :=
  (computeInitialPending TARGET_LEAVES MIN_SIZE_PER_LEAF).
Local Abbreviation step := (step fnv).
Local Abbreviation sequential := (sequential fnv).
Local Abbreviation leaf := (leaf fnv).
Local Abbreviation invoke := (invoke TARGET_LEAVES MIN_SIZE_PER_LEAF fnv).
Local Abbreviation splitter := (splitter TARGET_LEAVES MIN_SIZE_PER_LEAF).
Local Abbreviation summand := (summand fnv).
Local Abbreviation exactSum := (exactSum fnv).

(** *** Number and length of the leaf ranges *)

Lemma leafRanges_uniform (len : Z) (p : nat) : forall size pos,
  len <= MAX_VALUE -> 0 <= size -> 0 <= pos -> pos + size <= len ->
  let ranges := leafRanges (S p) (mkCustomCC size pos (Z.of_nat p)) in
  length ranges = (2 ^ p)%nat /\
  Forall (fun r => snd r = size / 2 ^ Z.of_nat p) ranges.
Proof.
  induction p as [| p IH]; intros size pos Hlen Hs Hpos Hin; cbv zeta.
  - rewrite leafRanges_S, forks_pending_0 by reflexivity.
    cbn [fst snd flat_map CustomCC.size CustomCC.pos length Nat.pow Z.of_nat].
    split; [reflexivity |].
    constructor; [| constructor]. cbn [snd].
    rewrite Z.pow_0_r, Z.div_1_r. reflexivity.
  - rewrite (leafRanges_halves len) by assumption.
    destruct (div_pow2_bounds size 1 Hs ltac:(lia)) as [Hh0 Hh1].
    change (2 ^ 1) with 2 in Hh0, Hh1.
    destruct (IH (size / 2) pos Hlen Hh0 Hpos ltac:(lia)) as [L1 F1].
    destruct (IH (size / 2) (pos + size / 2) Hlen Hh0 ltac:(lia) ltac:(lia))
      as [L2 F2].
    split.
    + rewrite length_app, L1, L2. cbn [Nat.pow]. lia.
    + replace (Z.of_nat (S p)) with (Z.of_nat p + 1) by lia.
      rewrite <- div2_div_pow2 by lia.
      apply Forall_app. split; assumption.
Qed.

Lemma pow2_pending_le_leaves (N : Z) :
  0 <= TARGET_LEAVES -> 0 < MIN_SIZE_PER_LEAF -> 0 <= N <= MAX_VALUE ->
  0 < Z.min TARGET_LEAVES (N / MIN_SIZE_PER_LEAF) ->
  2 ^ computeInitialPending N <= Z.min TARGET_LEAVES (N / MIN_SIZE_PER_LEAF).
Proof.
  intros HT HM HN Hpos.
  rewrite (computeInitialPending_log2 TARGET_LEAVES MIN_SIZE_PER_LEAF)
    by assumption.
  apply Z.log2_spec. exact Hpos.
Qed.

(** *** Ranges never overlap *)

Lemma separated_weaken (r : list (Z * Z)) : forall lo hi hi',
  separated lo hi r -> hi <= hi' -> separated lo hi' r.
Proof.
  induction r as [| x r IH]; intros lo hi hi' H Hle; cbn [separated] in *.
  - lia.
  - destruct H as (H1 & H2 & H3). repeat split; try assumption.
    apply (IH _ hi); assumption.
Qed.

Lemma separated_le (r : list (Z * Z)) : forall lo hi,
  separated lo hi r -> lo <= hi.
Proof.
  induction r as [| x r IH]; intros lo hi H; cbn [separated] in H.
  - exact H.
  - destruct H as (H1 & H2 & H3). apply IH in H3. lia.
Qed.

Lemma separated_app (r1 r2 : list (Z * Z)) : forall lo mid hi,
  separated lo mid r1 -> separated mid hi r2 -> separated lo hi (r1 ++ r2).
Proof.
  induction r1 as [| x r1 IH]; intros lo mid hi H1 H2; cbn [app separated] in *.
  - destruct r2 as [| y r2]; cbn [separated] in *.
    + lia.
    + destruct H2 as (Ha & Hb & Hc). repeat split; try assumption. lia.
  - destruct H1 as (Ha & Hb & Hc). repeat split; try assumption.
    apply (IH _ mid); assumption.
Qed.

Lemma separated_In (r : list (Z * Z)) : forall lo hi x,
  separated lo hi r -> In x r ->
  lo <= fst x /\ 0 <= snd x /\ fst x + snd x <= hi.
Proof.
  induction r as [| y r IH]; intros lo hi x H Hx; cbn [separated] in H.
  - destruct Hx.
  - destruct H as (H1 & H2 & H3). destruct Hx as [<- | Hx].
    + apply separated_le in H3. lia.
    + destruct (IH _ _ x H3 Hx) as (? & ? & ?). lia.
Qed.

Lemma separated_tail (l1 : list (Z * Z)) : forall lo hi x l2,
  separated lo hi (l1 ++ x :: l2) -> separated (fst x + snd x) hi l2.
Proof.
  induction l1 as [| y l1 IH]; intros lo hi x l2 H; cbn [app separated] in H.
  - destruct H as (_ & _ & H). exact H.
  - destruct H as (_ & _ & H). apply (IH _ _ _ _ H).
Qed.

Lemma separated_leafRanges (len : Z) (p : nat) : forall size pos,
  len <= MAX_VALUE -> 0 <= size -> 0 <= pos -> pos + size <= len ->
  separated pos (pos + size)
            (leafRanges (S p) (mkCustomCC size pos (Z.of_nat p))).
Proof.
  induction p as [| p IH]; intros size pos Hlen Hs Hpos Hin.
  - rewrite leafRanges_S, forks_pending_0 by reflexivity.
    cbn [fst snd flat_map CustomCC.size CustomCC.pos separated]. lia.
  - rewrite (leafRanges_halves len) by assumption.
    destruct (div_pow2_bounds size 1 Hs ltac:(lia)) as [Hh0 Hh1].
    change (2 ^ 1) with 2 in Hh0, Hh1.
    apply (separated_app _ _ pos (pos + size / 2) (pos + size)).
    + apply IH; lia.
    + apply (separated_weaken _ _ (pos + size / 2 + size / 2)); [| lia].
      apply IH; lia.
Qed.

Lemma separated_disjoint (rs : list (Z * Z)) (lo hi : Z) :
  separated lo hi rs ->
  forall l1 r1 l2 r2 l3 i,
    rs = l1 ++ r1 :: l2 ++ r2 :: l3 ->
    inRange i r1 -> ~ inRange i r2.
Proof.
  intros H l1 r1 l2 r2 l3 i -> H1 H2.
  apply separated_tail in H.
  destruct (separated_In _ _ _ r2 H) as (Hlo & _ & _).
  - apply in_or_app. right. left. reflexivity.
  - unfold inRange in *. lia.
Qed.

Lemma splitter_separated (N : Z) :
  0 <= TARGET_LEAVES -> 0 < MIN_SIZE_PER_LEAF -> 0 <= N <= MAX_VALUE ->
  separated 0 N (splitter N).
Proof.
  intros HT HM HN.
  rewrite (splitter_root TARGET_LEAVES MIN_SIZE_PER_LEAF) by assumption.
  apply (separated_leafRanges N _ N 0); lia.
Qed.

Lemma splitter_uniform (N : Z) :
  0 <= TARGET_LEAVES -> 0 < MIN_SIZE_PER_LEAF -> 0 <= N <= MAX_VALUE ->
  Z.of_nat (length (splitter N)) = 2 ^ computeInitialPending N /\
  Forall (fun r => snd r = N / 2 ^ computeInitialPending N) (splitter N).
Proof.
  intros HT HM HN.
  pose proof (computeInitialPending_nonneg TARGET_LEAVES MIN_SIZE_PER_LEAF
                N HT HM HN) as Hp.
  rewrite (splitter_root TARGET_LEAVES MIN_SIZE_PER_LEAF) by assumption.
  destruct (leafRanges_uniform N (Z.to_nat (computeInitialPending N)) N 0)
    as [HL HF]; try lia.
  assert (E : Z.of_nat (Z.to_nat (computeInitialPending N))
              = computeInitialPending N) by (apply Z2Nat.id; exact Hp).
  split.
  - rewrite HL, Nat2Z.inj_pow, E. reflexivity.
  - eapply Forall_impl; [| exact HF].
    cbv beta. intros r Hr. rewrite Hr, E. reflexivity.
Qed.

(** *** The sum never wraps *)

Lemma summand_bound (e : Z) : -4 <= summand e <= 4.
Proof.
  unfold Coverage.summand. destruct (e <? 150); [| lia].
  pose proof (Z.rem_bound_abs (fnv e) 5 ltac:(lia)). lia.
Qed.

Lemma exactSum_app (l1 l2 : list Z) :
  exactSum (l1 ++ l2) = exactSum l1 + exactSum l2.
Proof.
  unfold Coverage.exactSum.
  induction l1 as [| e l1 IH]; cbn [app fold_right]; lia.
Qed.

Lemma exactSum_bound (l : list Z) :
  - 4 * Z.of_nat (length l) <= exactSum l <= 4 * Z.of_nat (length l).
Proof.
  unfold Coverage.exactSum.
  induction l as [| e l IH]; cbn [fold_right length]; [lia |].
  pose proof (summand_bound e). lia.
Qed.

Lemma step_summand (res e : Z) :
  isLong res -> step res e = toLong (res + summand e).
Proof.
  intros H. unfold CustomCC.step, Coverage.summand.
  destruct (e <? 150); [reflexivity |].
  rewrite Z.add_0_r, toLong_id by exact H. reflexivity.
Qed.

Lemma sequential_toLong_exactSum (l : list Z) :
  sequential l = toLong (exactSum l).
Proof.
  induction l as [| e l IH] using rev_ind.
  - reflexivity.
  - unfold CustomCC.sequential. rewrite fold_left_app. cbn [fold_left].
    change (fold_left step l 0) with (sequential l).
    rewrite step_summand by apply sequential_isLong.
    rewrite IH, toLong_add_l, exactSum_app.
    unfold Coverage.exactSum at 3. cbn [fold_right].
    f_equal. lia.
Qed.

Lemma sequential_exactSum (l : list Z) :
  4 * Z.of_nat (length l) < 2 ^ 63 -> sequential l = exactSum l.
Proof.
  intros H. rewrite sequential_toLong_exactSum.
  apply toLong_id. pose proof (exactSum_bound l). lia.
Qed.

Lemma slice_length (a : list Z) (pos size : Z) :
  0 <= size -> Z.of_nat (length (slice a pos size)) <= size.
Proof.
  intros H. unfold slice.
  pose proof (firstn_le_length (Z.to_nat size) (skipn (Z.to_nat pos) a)).
  lia.
Qed.

Lemma covered_length (a : list Z) (rs : list (Z * Z)) : forall lo hi,
  separated lo hi rs -> Z.of_nat (length (covered a rs)) <= totalLength rs.
Proof.
  unfold covered, totalLength.
  induction rs as [| r rs IH]; intros lo hi H; cbn [separated] in H.
  - cbn. lia.
  - destruct H as (_ & Hs & H). apply IH in H.
    cbn [flat_map map fold_right]. rewrite length_app.
    pose proof (slice_length a (fst r) (snd r) Hs). lia.
Qed.

(** *** The leaf loop never leaves the array *)

Lemma leaf_guarded (a : list Z) (pos size res : Z) :
  Z.of_nat (length a) <= MAX_VALUE ->
  leaf a pos size res =
    Some (if leafGuard a pos size
          then fold_left step (slice a pos (toInt (pos + size) - pos)) res
          else res).
Proof.
  intros Hlen. unfold CustomCC.leaf.
  destruct (leafGuard a pos size) eqn:G; [| reflexivity].
  unfold leafGuard in G.
  apply andb_prop in G as [G G3]. apply andb_prop in G as [G1 G2].
  apply Z.leb_le in G1, G2. apply Z.ltb_lt in G3.
  set (hi := toInt (pos + size)) in *.
  unfold slice.
  destruct (Z.to_nat (hi - pos)) as [| n] eqn:En; [lia |].
  apply doWhile_fold; lia.
Qed.

(** *** Properties of the forest *)

(** X1: on every array [invoke] returns normally (no index leaves the
    array, however the ranges are cut), and its result is the result of
    the sequential loop over the elements of the leaf ranges, read from
    left to right. *)
Theorem invoke_result_of_covered (arr : list Z) :
  0 <= TARGET_LEAVES -> 0 < MIN_SIZE_PER_LEAF ->
  Z.of_nat (length arr) <= MAX_VALUE ->
  invoke arr
  = Some (sequential (covered arr (splitter (Z.of_nat (length arr))))).
Proof.
  intros HT HM Hlen.
  exact (invoke_covered TARGET_LEAVES MIN_SIZE_PER_LEAF fnv arr HT HM Hlen).
Qed.

(** X2: when 2^pending divides the length of the array, in particular
    when the array is too short to be split, [invoke] returns exactly what
    the sequential loop returns. *)
Theorem invoke_equals_sequential_when_divisible (arr : list Z) :
  0 <= TARGET_LEAVES -> 0 < MIN_SIZE_PER_LEAF ->
  Z.of_nat (length arr) <= MAX_VALUE ->
  Z.of_nat (length arr)
    mod 2 ^ computeInitialPending (Z.of_nat (length arr)) = 0 ->
  invoke arr = Some (sequential arr).
Proof.
  intros HT HM Hlen Hdiv.
  exact (invoke_sequential TARGET_LEAVES MIN_SIZE_PER_LEAF fnv arr
           HT HM Hlen Hdiv).
Qed.

(** X3: the leaf ranges of an array of N elements have the total length
    N - N mod 2^pending: N mod 2^pending indices, fewer than the number of
    leaf ranges, are in no leaf range. *)
Theorem splitter_missed_indices (N : Z) :
  0 <= TARGET_LEAVES -> 0 < MIN_SIZE_PER_LEAF -> 0 <= N <= MAX_VALUE ->
  totalLength (splitter N) = N - N mod 2 ^ computeInitialPending N /\
  0 <= N - totalLength (splitter N) < Z.of_nat (length (splitter N)).
Proof.
  intros HT HM HN.
  pose proof (computeInitialPending_nonneg TARGET_LEAVES MIN_SIZE_PER_LEAF
                N HT HM HN) as Hp.
  destruct (splitter_uniform N HT HM HN) as [-> _].
  rewrite (splitter_totalLength TARGET_LEAVES MIN_SIZE_PER_LEAF)
    by assumption.
  split; [reflexivity |].
  pose proof (Z.mod_pos_bound N (2 ^ computeInitialPending N)
                ltac:(apply Z.pow_pos_nonneg; lia)).
  lia.
Qed.

(** X4: the leaf ranges cover [0, N) without gap or overlap if and only
    if 2^pending divides N. *)
Theorem splitter_exact_iff_divisible (N : Z) :
  0 <= TARGET_LEAVES -> 0 < MIN_SIZE_PER_LEAF -> 0 <= N <= MAX_VALUE ->
  tiles 0 N (splitter N) <-> N mod 2 ^ computeInitialPending N = 0.
Proof.
  intros HT HM HN.
  exact (splitter_tiles_iff TARGET_LEAVES MIN_SIZE_PER_LEAF N HT HM HN).
Qed.

(** X5: whatever [int] TARGET_LEAVES holds, also a negative one, the
    pending count of the root is between 0 and 31; the array creation
    [new CustomCC[pending]] never sees a negative length. *)
Theorem computeInitialPending_between_0_and_31 (N : Z) :
  isInt TARGET_LEAVES -> 0 < MIN_SIZE_PER_LEAF -> 0 <= N <= MAX_VALUE ->
  0 <= computeInitialPending N <= 31.
Proof.
  intros HT HM HN.
  exact (computeInitialPending_range TARGET_LEAVES MIN_SIZE_PER_LEAF N
           HT HM HN).
Qed.

(** X6: the forest of an array of N elements has 2^pending leaf ranges,
    one for each task, and all of them have the same length
    floor(N / 2^pending). *)
Theorem splitter_leaves_uniform (N : Z) :
  0 <= TARGET_LEAVES -> 0 < MIN_SIZE_PER_LEAF -> 0 <= N <= MAX_VALUE ->
  Z.of_nat (length (splitter N)) = 2 ^ computeInitialPending N /\
  Forall (fun r => snd r = N / 2 ^ computeInitialPending N) (splitter N).
Proof. intros HT HM HN. exact (splitter_uniform N HT HM HN). Qed.

(** X7: there are never more leaf ranges than TARGET_LEAVES, and when
    the array has at least MIN_SIZE_PER_LEAF elements every leaf range has
    at least MIN_SIZE_PER_LEAF elements. *)
Theorem splitter_respects_constants (N : Z) :
  1 <= TARGET_LEAVES -> 0 < MIN_SIZE_PER_LEAF -> 0 <= N <= MAX_VALUE ->
  Z.of_nat (length (splitter N)) <= TARGET_LEAVES /\
  (MIN_SIZE_PER_LEAF <= N ->
   Forall (fun r => MIN_SIZE_PER_LEAF <= snd r) (splitter N)).
Proof.
  intros HT HM HN.
  assert (HT0 : 0 <= TARGET_LEAVES) by lia.
  destruct (splitter_uniform N HT0 HM HN) as [HL HF].
  destruct (leaves_range TARGET_LEAVES MIN_SIZE_PER_LEAF N HT0 HM HN)
    as [_ Hl].
  assert (Hq : MIN_SIZE_PER_LEAF * (N / MIN_SIZE_PER_LEAF) <= N)
    by (apply Z.mul_div_le; lia).
  destruct (Z.eq_dec (Z.min TARGET_LEAVES (N / MIN_SIZE_PER_LEAF)) 0)
    as [E0 | Hne].
  - assert (Hp : computeInitialPending N = 0).
    { rewrite (computeInitialPending_log2 TARGET_LEAVES MIN_SIZE_PER_LEAF)
        by assumption.
      rewrite E0. reflexivity. }
    rewrite Hp in HL, HF. rewrite Z.pow_0_r in HL, HF. split; [lia |].
    intros HMN. eapply Forall_impl; [| exact HF].
    cbv beta. intros r ->. rewrite Z.div_1_r. exact HMN.
  - pose proof (pow2_pending_le_leaves N HT0 HM HN ltac:(lia)) as Hpow.
    split; [lia |].
    intros HMN. eapply Forall_impl; [| exact HF].
    cbv beta. intros r ->.
    assert (0 < 2 ^ computeInitialPending N)
      by (apply Z.pow_pos_nonneg;
          [lia | apply (computeInitialPending_nonneg
                          TARGET_LEAVES MIN_SIZE_PER_LEAF); assumption]).
    apply Z.div_le_lower_bound; [assumption |]. nia.
Qed.

(** X8: the leaf ranges lie inside [0, N) and follow each other from
    left to right; no index is in two of them, so no element is added
    twice. *)
Theorem splitter_ranges_disjoint (N : Z) :
  0 <= TARGET_LEAVES -> 0 < MIN_SIZE_PER_LEAF -> 0 <= N <= MAX_VALUE ->
  separated 0 N (splitter N) /\
  (forall r i, In r (splitter N) -> inRange i r -> 0 <= i < N) /\
  (forall l1 r1 l2 r2 l3 i,
     splitter N = l1 ++ r1 :: l2 ++ r2 :: l3 ->
     inRange i r1 -> ~ inRange i r2).
Proof.
  intros HT HM HN.
  pose proof (splitter_separated N HT HM HN) as Hsep.
  split; [exact Hsep |]. split.
  - intros r i Hr Hi.
    destruct (separated_In _ _ _ r Hsep Hr) as (? & ? & ?).
    unfold inRange in Hi. lia.
  - exact (separated_disjoint _ _ _ Hsep).
Qed.

(** X9: the 64 bit sum never wraps on a Java array: the sequential loop
    returns the exact integer sum of the summands, which lies between
    -4 * length and 4 * length, and [invoke] returns the exact sum over
    the elements of its leaf ranges. *)
Theorem sum_never_wraps (arr : list Z) :
  0 <= TARGET_LEAVES -> 0 < MIN_SIZE_PER_LEAF ->
  Z.of_nat (length arr) <= MAX_VALUE ->
  sequential arr = exactSum arr /\
  - 4 * Z.of_nat (length arr) <= sequential arr <= 4 * Z.of_nat (length arr) /\
  invoke arr
  = Some (exactSum (covered arr (splitter (Z.of_nat (length arr))))).
Proof.
  intros HT HM Hlen.
  assert (Hseq : sequential arr = exactSum arr)
    by (apply sequential_exactSum; unfold MAX_VALUE in Hlen; lia).
  split; [exact Hseq |]. split.
  - rewrite Hseq. apply exactSum_bound.
  - rewrite (invoke_covered TARGET_LEAVES MIN_SIZE_PER_LEAF) by assumption.
    f_equal. apply sequential_exactSum.
    set (N := Z.of_nat (length arr)) in *.
    pose proof (covered_length arr (splitter N) 0 N
                  (splitter_separated N HT HM ltac:(lia))) as Hc.
    rewrite (splitter_totalLength TARGET_LEAVES MIN_SIZE_PER_LEAF) in Hc
      by lia.
    pose proof (Z.mod_pos_bound N (2 ^ computeInitialPending N)
                  ltac:(apply Z.pow_pos_nonneg;
                        [lia | apply (computeInitialPending_nonneg
                                        TARGET_LEAVES MIN_SIZE_PER_LEAF);
                               lia])).
    unfold MAX_VALUE in Hlen. lia.
Qed.

(** X10: the leaf loop never reads outside the array, whatever [pos] and
    [size] are: when the guard fails it leaves [res] as it is, and when
    the guard holds it adds the elements from [pos] up to the end
    [(int) (pos + size)] of the range. *)
Theorem leaf_never_out_of_bounds (a : list Z) (pos size res : Z) :
  Z.of_nat (length a) <= MAX_VALUE ->
  exists r,
    leaf a pos size res = Some r /\
    (leafGuard a pos size = false -> r = res) /\
    (leafGuard a pos size = true ->
     r = fold_left step (slice a pos (toInt (pos + size) - pos)) res /\
     0 <= pos < toInt (pos + size) /\
     toInt (pos + size) <= Z.of_nat (length a)).
Proof.
  intros Hlen. rewrite leaf_guarded by exact Hlen.
  eexists. split; [reflexivity |]. split.
  - intros ->. reflexivity.
  - intros G. rewrite G. split; [reflexivity |].
    unfold leafGuard in G.
    apply andb_prop in G as [G G3]. apply andb_prop in G as [G1 G2].
    apply Z.leb_le in G1, G2. apply Z.ltb_lt in G3. lia.
Qed.

End Facts.

End ForestFacts.

Module ForestInstances.
Import JavaInt CustomCC Coverage ForestFacts.

Lemma invoke_result_of_covered_witness :
  let arr := [1; 2; 3; 4; 5; 6] in
  (0 <= 16 /\ 0 < 1 /\ Z.of_nat (length arr) <= MAX_VALUE) /\
  invoke 16 1 fnv1a arr
  = Some (sequential fnv1a (covered arr (splitter 16 1 (Z.of_nat (length arr))))).
Proof.
  intros arr.
  assert (H1 : 0 <= 16) by lia.
  assert (H2 : 0 < 1) by lia.
  assert (H3 : Z.of_nat (length arr) <= MAX_VALUE) by (vm_compute; discriminate).
  split; [exact (conj H1 (conj H2 H3)) |].
  exact (invoke_result_of_covered 16 1 fnv1a arr H1 H2 H3).
Defined.

Lemma invoke_equals_sequential_when_divisible_witness :
  let arr := [1; 2; 3; 4; 5; 6; 7; 8] in
  (0 <= 16 /\ 0 < 1 /\ Z.of_nat (length arr) <= MAX_VALUE /\
   Z.of_nat (length arr)
     mod 2 ^ computeInitialPending 16 1 (Z.of_nat (length arr)) = 0) /\
  invoke 16 1 fnv1a arr = Some (sequential fnv1a arr).
Proof.
  intros arr.
  assert (H1 : 0 <= 16) by lia.
  assert (H2 : 0 < 1) by lia.
  assert (H3 : Z.of_nat (length arr) <= MAX_VALUE) by (vm_compute; discriminate).
  assert (H4 : Z.of_nat (length arr)
                 mod 2 ^ computeInitialPending 16 1 (Z.of_nat (length arr)) = 0)
    by (vm_compute; reflexivity).
  split; [exact (conj H1 (conj H2 (conj H3 H4))) |].
  exact (invoke_equals_sequential_when_divisible 16 1 fnv1a arr H1 H2 H3 H4).
Defined.

Lemma splitter_missed_indices_witness :
  (0 <= 16 /\ 0 < 1 /\ 0 <= 6 <= MAX_VALUE) /\
  totalLength (splitter 16 1 6) = 6 - 6 mod 2 ^ computeInitialPending 16 1 6 /\
  0 <= 6 - totalLength (splitter 16 1 6) < Z.of_nat (length (splitter 16 1 6)).
Proof.
  assert (H1 : 0 <= 16) by lia.
  assert (H2 : 0 < 1) by lia.
  assert (H3 : 0 <= 6 <= MAX_VALUE) by (unfold MAX_VALUE; lia).
  split; [exact (conj H1 (conj H2 H3)) |].
  exact (splitter_missed_indices 16 1 6 H1 H2 H3).
Defined.

Lemma splitter_exact_iff_divisible_witness :
  (0 <= 16 /\ 0 < 1 /\ 0 <= 8 <= MAX_VALUE) /\
  (tiles 0 8 (splitter 16 1 8) <-> 8 mod 2 ^ computeInitialPending 16 1 8 = 0).
Proof.
  assert (H1 : 0 <= 16) by lia.
  assert (H2 : 0 < 1) by lia.
  assert (H3 : 0 <= 8 <= MAX_VALUE) by (unfold MAX_VALUE; lia).
  split; [exact (conj H1 (conj H2 H3)) |].
  exact (splitter_exact_iff_divisible 16 1 8 H1 H2 H3).
Defined.

Lemma computeInitialPending_between_0_and_31_witness :
  (isInt (-1) /\ 0 < 10000 /\ 0 <= 5 <= MAX_VALUE) /\
  0 <= computeInitialPending (-1) 10000 5 <= 31.
Proof.
  assert (H1 : isInt (-1)) by (unfold isInt, MAX_VALUE; lia).
  assert (H2 : 0 < 10000) by lia.
  assert (H3 : 0 <= 5 <= MAX_VALUE) by (unfold MAX_VALUE; lia).
  split; [exact (conj H1 (conj H2 H3)) |].
  exact (computeInitialPending_between_0_and_31 (-1) 10000 5 H1 H2 H3).
Defined.

Lemma splitter_leaves_uniform_witness :
  (0 <= 16 /\ 0 < 1 /\ 0 <= 6 <= MAX_VALUE) /\
  Z.of_nat (length (splitter 16 1 6)) = 2 ^ computeInitialPending 16 1 6 /\
  Forall (fun r => snd r = 6 / 2 ^ computeInitialPending 16 1 6)
         (splitter 16 1 6).
Proof.
  assert (H1 : 0 <= 16) by lia.
  assert (H2 : 0 < 1) by lia.
  assert (H3 : 0 <= 6 <= MAX_VALUE) by (unfold MAX_VALUE; lia).
  split; [exact (conj H1 (conj H2 H3)) |].
  exact (splitter_leaves_uniform 16 1 6 H1 H2 H3).
Defined.

Lemma splitter_respects_constants_witness :
  (1 <= 16 /\ 0 < 2 /\ 0 <= 7 <= MAX_VALUE) /\
  Z.of_nat (length (splitter 16 2 7)) <= 16 /\
  (2 <= 7 -> Forall (fun r => 2 <= snd r) (splitter 16 2 7)).
Proof.
  assert (H1 : 1 <= 16) by lia.
  assert (H2 : 0 < 2) by lia.
  assert (H3 : 0 <= 7 <= MAX_VALUE) by (unfold MAX_VALUE; lia).
  split; [exact (conj H1 (conj H2 H3)) |].
  exact (splitter_respects_constants 16 2 7 H1 H2 H3).
Defined.

Lemma splitter_ranges_disjoint_witness :
  (0 <= 16 /\ 0 < 1 /\ 0 <= 6 <= MAX_VALUE) /\
  separated 0 6 (splitter 16 1 6) /\
  (forall r i, In r (splitter 16 1 6) -> inRange i r -> 0 <= i < 6).
Proof.
  assert (H1 : 0 <= 16) by lia.
  assert (H2 : 0 < 1) by lia.
  assert (H3 : 0 <= 6 <= MAX_VALUE) by (unfold MAX_VALUE; lia).
  destruct (splitter_ranges_disjoint 16 1 6 H1 H2 H3) as (Ha & Hb & _).
  split; [exact (conj H1 (conj H2 H3)) |].
  split; [exact Ha | exact Hb].
Defined.

Lemma sum_never_wraps_witness :
  let arr := [1; 2; 3; 4; 5; 6] in
  (0 <= 16 /\ 0 < 1 /\ Z.of_nat (length arr) <= MAX_VALUE) /\
  sequential fnv1a arr = exactSum fnv1a arr /\
  invoke 16 1 fnv1a arr
  = Some (exactSum fnv1a (covered arr (splitter 16 1 (Z.of_nat (length arr))))).
Proof.
  intros arr.
  assert (H1 : 0 <= 16) by lia.
  assert (H2 : 0 < 1) by lia.
  assert (H3 : Z.of_nat (length arr) <= MAX_VALUE) by (vm_compute; discriminate).
  destruct (sum_never_wraps 16 1 fnv1a arr H1 H2 H3) as (Ha & _ & Hc).
  split; [exact (conj H1 (conj H2 H3)) |].
  split; [exact Ha | exact Hc].
Defined.

Lemma leaf_never_out_of_bounds_witness :
  Z.of_nat (length [1; 2; 3]) <= MAX_VALUE /\
  exists r, leaf fnv1a [1; 2; 3] 1 5 0 = Some r /\ r = 0.
Proof.
  assert (H : Z.of_nat (length [1; 2; 3]) <= MAX_VALUE)
    by (vm_compute; discriminate).
  split; [exact H |].
  destruct (leaf_never_out_of_bounds fnv1a [1; 2; 3] 1 5 0 H)
    as (r & Hr & Hfalse & _).
  exists r. split; [exact Hr |]. apply Hfalse. reflexivity.
Defined.

End ForestInstances.

(** ** More on the presizing changeset *)

Module AdapterFacts.
Import JavaInt JavaIntFacts Collector Collectors Adapters ReduceOps
       ReferencePipeline.

Lemma toInt_mod (z : Z) :
  toInt z = if z mod 2 ^ 32 <? 2 ^ 31
            then z mod 2 ^ 32
            else z mod 2 ^ 32 - 2 ^ 32.
Proof.
  unfold toInt.
  pose proof (Z.div_mod z (2 ^ 32) ltac:(lia)) as E.
  pose proof (Z.mod_pos_bound z (2 ^ 32) ltac:(lia)) as B.
  set (m := z mod 2 ^ 32) in *. set (q := z / 2 ^ 32) in *.
  destruct (Z.ltb_spec m (2 ^ 31)).
  - replace (z + 2 ^ 31) with (m + 2 ^ 31 + q * 2 ^ 32) by lia.
    rewrite Z_mod_plus_full, Z.mod_small by lia. lia.
  - replace (z + 2 ^ 31) with (m - 2 ^ 31 + (q + 1) * 2 ^ 32) by lia.
    rewrite Z_mod_plus_full, Z.mod_small by lia. lia.
Qed.

Lemma contains_CH (cs : list Characteristics) (x : Characteristics) :
  contains (if (0 <? length cs)%nat then cs else CH_NOID) x = contains cs x.
Proof. destruct cs; reflexivity. Qed.

Lemma fold_add_elements {T : Type} (xs : list T) : forall l : ArrayList T,
  elements (fold_left ArrayList_add xs l) = elements l ++ xs.
Proof.
  induction xs as [| x xs IH]; intros l; cbn [fold_left].
  - rewrite app_nil_r. reflexivity.
  - rewrite IH. cbn [ArrayList_add elements]. rewrite <- app_assoc.
    reflexivity.
Qed.

(** X11: a collector made by a [Collector.of] factory without finisher
    always has IDENTITY_FINISH, besides the characteristics it was given;
    one made by a factory with a finisher has exactly the characteristics
    it was given. *)
Theorem of_characteristics {T A R : Type}
    (sizedSupplier0 : Z -> Exc A) (supplier0 : unit -> Exc A)
    (accumulator0 : A -> T -> A) (combiner0 : A -> A -> A)
    (finisher0 : A -> R) (cs : list Characteristics) (x : Characteristics) :
  (contains (characteristics
               (of_sized sizedSupplier0 supplier0 accumulator0 combiner0 cs)) x
   = true <-> x = IDENTITY_FINISH \/ In x cs) /\
  (contains (characteristics
               (of_supplier supplier0 accumulator0 combiner0 cs)) x
   = true <-> x = IDENTITY_FINISH \/ In x cs) /\
  (contains (characteristics
               (of_sized_finisher sizedSupplier0 supplier0 accumulator0
                                  combiner0 finisher0 cs)) x
   = true <-> In x cs) /\
  (contains (characteristics
               (of_supplier_finisher supplier0 accumulator0 combiner0
                                     finisher0 cs)) x
   = true <-> In x cs).
Proof.
  assert (H1 : contains (if (length cs =? 0)%nat then CH_ID
                         else IDENTITY_FINISH :: cs) x = true
               <-> x = IDENTITY_FINISH \/ In x cs).
  { rewrite PresizingFacts.contains_In.
    destruct cs as [| c cs]; cbn [length Nat.eqb CH_ID In].
    - split; [intros [<- | []]; left; reflexivity
             | intros [-> | []]; left; reflexivity].
    - split; [intros [<- | H]; [left; reflexivity | right; exact H]
             | intros [-> | H]; [left; reflexivity | right; exact H]]. }
  assert (H2 : contains (if (0 <? length cs)%nat then cs else CH_NOID) x = true
               <-> In x cs).
  { rewrite contains_CH. apply PresizingFacts.contains_In. }
  repeat split; first [apply H1 | apply H2].
Qed.


(** X13: [mapping] feeds the downstream accumulator the mapped elements:
    accumulating a list with [mapping(mapper, downstream)] is accumulating
    the mapped list with [downstream]. *)
Theorem mapping_accumulates {T U A R : Type} (mapper : T -> U)
    (downstream : Collector U A R) (xs : list T) (a : A) :
  fold_left (accumulator (mapping mapper downstream)) xs a
  = fold_left (accumulator downstream) (map mapper xs) a.
Proof.
  revert a. induction xs as [| x xs IH]; intros a; cbn [fold_left map].
  - reflexivity.
  - rewrite IH. reflexivity.
Qed.

(** X14: [filtering] feeds the downstream accumulator the elements that
    pass the predicate and no other: accumulating a list with
    [filtering(predicate, downstream)] is accumulating the filtered list
    with [downstream]. *)
Theorem filtering_accumulates {T A R : Type} (predicate : T -> bool)
    (downstream : Collector T A R) (xs : list T) (a : A) :
  fold_left (accumulator (filtering predicate downstream)) xs a
  = fold_left (accumulator downstream) (filter predicate xs) a.
Proof.
  revert a. induction xs as [| x xs IH]; intros a; cbn [fold_left filter].
  - reflexivity.
  - rewrite IH. cbn [filtering accumulator CollectorImpl_sized_finisher].
    destruct (predicate x); reflexivity.
Qed.

(** X15: [mapping] and [filtering] hand the size through to the
    downstream suppliers: [begin] and [evaluateParallel] allocate for them
    what they allocate for the downstream collector (for [filtering], at
    the size counted before the predicate is applied), they ignore the
    capacity when the downstream collector does, and [collect] chooses the
    same kind of terminal operation. *)
Theorem adapters_pass_size_through {T U A R : Type} (mapper : T -> U)
    (predicate : U -> bool) (downstream : Collector U A R)
    (size : Z) (sink : Box A) (p : Pipeline) :
  let m := mapping mapper downstream in
  let f := filtering predicate downstream in
  begin m size sink = begin downstream size sink /\
  begin f size sink = begin downstream size sink /\
  evaluateParallel_res m size = evaluateParallel_res downstream size /\
  evaluateParallel_res f size = evaluateParallel_res downstream size /\
  (ignoresCapacity downstream -> ignoresCapacity m /\ ignoresCapacity f) /\
  (collect_op p m = UnorderedConcurrentCollectorOp m
     <-> collect_op p downstream = UnorderedConcurrentCollectorOp downstream) /\
  (collect_op p f = UnorderedConcurrentCollectorOp f
     <-> collect_op p downstream = UnorderedConcurrentCollectorOp downstream).
Proof.
  cbv zeta. repeat split; try reflexivity.
  - apply (H n m).
  - apply (H n m).
  - apply (H n m).
  - apply (H n m).
  - unfold collect_op. cbn [mapping characteristics CollectorImpl_sized_finisher].
    destruct (_ && _ && _); [reflexivity | discriminate].
  - unfold collect_op. cbn [mapping characteristics CollectorImpl_sized_finisher].
    destruct (_ && _ && _); [reflexivity | discriminate].
  - unfold collect_op.
    cbn [filtering characteristics CollectorImpl_sized_finisher].
    destruct (_ && _ && _); [reflexivity | discriminate].
  - unfold collect_op.
    cbn [filtering characteristics CollectorImpl_sized_finisher].
    destruct (_ && _ && _); [reflexivity | discriminate].
Qed.

(** X16: the sized constructor of [PairBox] asks both downstream sized
    suppliers for the same capacity, the first one first: when the first
    throws, the second is not reached and the exception is that of the
    first; when the second throws, the constructor throws its exception;
    and when both downstream collectors ignore the capacity, it builds
    what the constructor without size builds. *)
Theorem PairBox_sized_suppliers {T A1 A2 R1 R2 : Type}
    (downstream1 : Collector T A1 R1) (downstream2 : Collector T A2 R2)
    (initialSize : Z) :
  (forall e, sizedSupplier downstream1 initialSize = Throw e ->
     PairBox_sized downstream1 downstream2 initialSize = Throw e) /\
  (forall left e,
     sizedSupplier downstream1 initialSize = Return left ->
     sizedSupplier downstream2 initialSize = Throw e ->
     PairBox_sized downstream1 downstream2 initialSize = Throw e) /\
  (forall left right,
     sizedSupplier downstream1 initialSize = Return left ->
     sizedSupplier downstream2 initialSize = Return right ->
     PairBox_sized downstream1 downstream2 initialSize
     = Return (left, right)) /\
  (ignoresCapacity downstream1 -> ignoresCapacity downstream2 ->
   PairBox_sized downstream1 downstream2 initialSize
   = PairBox downstream1 downstream2 tt).
Proof.
  unfold PairBox_sized, PairBox. repeat split.
  - intros e ->. reflexivity.
  - intros left e -> ->. reflexivity.
  - intros left right -> ->. reflexivity.
  - intros H1 H2.
    destruct (H1 initialSize initialSize) as [-> _].
    destruct (H2 initialSize initialSize) as [-> _].
    reflexivity.
Qed.

(** X17: what [begin] does for [toList] at every size: the default list
    at -1; otherwise a list whose capacity is the low 32 bits of the size
    when these are below 2^31, so that a size of 2^32 + 5 is presized for
    5 elements; and IllegalArgumentException when they are not. *)
Theorem begin_toList_by_size {T : Type} (size : Z) (sink : Box (ArrayList T)) :
  begin toList size sink =
    if size =? -1 then Return (mkBox (Some (mkArrayList 10 [])))
    else if size mod 2 ^ 32 <? 2 ^ 31
         then Return (mkBox (Some (mkArrayList (size mod 2 ^ 32) [])))
         else Throw IllegalArgumentException.
Proof.
  unfold begin. destruct (size =? -1); [reflexivity |].
  cbn [toList sizedSupplier CollectorImpl_sized CollectorImpl_sized_finisher].
  unfold ArrayList_new_capacity. rewrite toInt_mod.
  pose proof (Z.mod_pos_bound size (2 ^ 32) ltac:(lia)) as B.
  destruct (Z.ltb_spec (size mod 2 ^ 32) (2 ^ 31)).
  - destruct (Z.ltb_spec (size mod 2 ^ 32) 0); [lia | reflexivity].
  - destruct (Z.ltb_spec (size mod 2 ^ 32 - 2 ^ 32) 0); [reflexivity | lia].
Qed.

(** X18: [toList] keeps the order of the elements: accumulating appends,
    combining two partial lists gives the elements of the left one followed
    by those of the right one, so that splitting a list anywhere,
    accumulating the two parts into fresh lists and combining them gives
    the elements that accumulating the whole list gives; combining is
    associative on the elements. *)
Theorem toList_keeps_order {T : Type} (l r c : ArrayList T) (xs ys : list T) :
  let acc := fold_left (accumulator toList) in
  elements (acc xs l) = elements l ++ xs /\
  elements (combiner toList (acc xs l) (acc ys r))
    = (elements l ++ xs) ++ (elements r ++ ys) /\
  (elements l = [] -> elements r = [] ->
   elements (combiner toList (acc xs l) (acc ys r))
   = elements (acc (xs ++ ys) l)) /\
  elements (combiner toList (combiner toList l r) c)
    = elements (combiner toList l (combiner toList r c)).
Proof.
  cbv zeta.
  cbn [toList accumulator combiner CollectorImpl_sized
       CollectorImpl_sized_finisher].
  repeat split.
  - apply fold_add_elements.
  - cbn [ArrayList_addAll elements]. rewrite !fold_add_elements. reflexivity.
  - intros Hl Hr. cbn [ArrayList_addAll elements].
    rewrite !fold_add_elements, Hl, Hr. reflexivity.
  - cbn [ArrayList_addAll elements]. rewrite app_assoc. reflexivity.
Qed.

(** X19: the ordered and the unordered path allocate alike: what
    [ReducingSink.begin] stores for a size is what
    [UnorderedConcurrentCollectorOp.evaluateParallel] assigns to [res] for
    that size, although the two tests are written the other way round. *)
Theorem begin_agrees_with_evaluateParallel {T A R : Type}
    (collector : Collector T A R) (size : Z) (sink : Box A) :
  begin collector size sink
  = bind (evaluateParallel_res collector size)
         (fun s => Return (mkBox (Some s))).
Proof.
  unfold begin, evaluateParallel_res.
  destruct (size =? -1); reflexivity.
Qed.

End AdapterFacts.

(** ** Universal hashing *)

Module UniversalHashFacts.
Import JavaInt JavaIntFacts UniversalHash.

Lemma toInt_mod_2_32 (z : Z) : toInt z mod 2 ^ 32 = z mod 2 ^ 32.
Proof.
  unfold toInt. rewrite Zminus_mod_idemp_l. f_equal. lia.
Qed.

Lemma toLong_mod_2_64 (z : Z) : toLong z mod 2 ^ 64 = z mod 2 ^ 64.
Proof.
  unfold toLong. rewrite Zminus_mod_idemp_l. f_equal. lia.
Qed.

Lemma toInt_range (z : Z) : isInt (toInt z).
Proof.
  unfold isInt, toInt, MAX_VALUE.
  pose proof (Z.mod_pos_bound (z + 2 ^ 31) (2 ^ 32) ltac:(lia)). lia.
Qed.

Lemma toInt_add_l (a b : Z) : toInt (toInt a + b) = toInt (a + b).
Proof.
  unfold toInt.
  replace ((a + 2 ^ 31) mod 2 ^ 32 - 2 ^ 31 + b + 2 ^ 31)
    with ((a + 2 ^ 31) mod 2 ^ 32 + b) by lia.
  rewrite Z.add_mod_idemp_l by lia. f_equal. f_equal. lia.
Qed.

Lemma lushr_32 (l : Z) : lushr l 32 = l mod 2 ^ 64 / 2 ^ 32.
Proof.
  unfold lushr. rewrite Z.shiftr_div_pow2 by lia.
  apply toLong_id.
  pose proof (Z.mod_pos_bound l (2 ^ 64) ltac:(lia)).
  assert (0 <= l mod 2 ^ 64 / 2 ^ 32) by (apply Z.div_pos; lia).
  assert (l mod 2 ^ 64 / 2 ^ 32 < 2 ^ 32)
    by (apply Z.div_lt_upper_bound; lia).
  lia.
Qed.

(** The two halves of the 64 bit hash, put together again. *)
Lemma newRecord_halves (hashCode : Z) :
  let r := newRecord hashCode in
  (hb r mod 2 ^ 32) * 2 ^ 32 + ha r mod 2 ^ 32
  = (hashCode * G_FACTOR_64) mod 2 ^ 64.
Proof.
  cbv zeta. unfold newRecord. cbn [ha hb].
  rewrite !toInt_mod_2_32, lushr_32, toLong_mod_2_64.
  set (u := (hashCode * G_FACTOR_64) mod 2 ^ 64).
  assert (Hu : 0 <= u < 2 ^ 64) by (apply Z.mod_pos_bound; lia).
  rewrite (Z.mod_small (u / 2 ^ 32)).
  - assert (E : toLong (hashCode * G_FACTOR_64) mod 2 ^ 32 = u mod 2 ^ 32).
    { rewrite <- (Z.mod_mod_divide (toLong (hashCode * G_FACTOR_64))
                                   (2 ^ 64) (2 ^ 32))
        by (exists (2 ^ 32); reflexivity).
      rewrite toLong_mod_2_64. reflexivity. }
    rewrite E. pose proof (Z.div_mod u (2 ^ 32) ltac:(lia)). lia.
  - split; [apply Z.div_pos; lia | apply Z.div_lt_upper_bound; lia].
Qed.

(** G_FACTOR_64 is odd, so multiplying by it can be undone modulo 2^64. *)
Lemma G_FACTOR_64_inverse (h : Z) :
  ((h * G_FACTOR_64) mod 2 ^ 64 * 17428512612931826493) mod 2 ^ 64
  = h mod 2 ^ 64.
Proof.
  rewrite Z.mul_mod_idemp_l by lia.
  rewrite <- Z.mul_assoc, Z.mul_mod by lia.
  replace ((G_FACTOR_64 * 17428512612931826493) mod 2 ^ 64) with 1
    by reflexivity.
  rewrite Z.mul_1_r, Z.mod_mod by lia. reflexivity.
Qed.

Lemma index_quotient (hash_i length : Z) :
  0 <= length <= MAX_VALUE ->
  index hash_i length = (hash_i mod 2 ^ 32) * length / 2 ^ 32 /\
  0 <= (hash_i mod 2 ^ 32) * length < 2 ^ 63.
Proof.
  unfold MAX_VALUE. intros Hl. unfold index.
  change 4294967295 with (Z.ones 32). rewrite Z.land_ones by lia.
  pose proof (Z.mod_pos_bound hash_i (2 ^ 32) ltac:(lia)) as Hu.
  set (u := hash_i mod 2 ^ 32) in *.
  assert (Hp : 0 <= u * length < 2 ^ 63) by nia.
  split; [| exact Hp].
  rewrite toLong_id by lia.
  rewrite lushr_32, Z.mod_small by lia.
  apply toInt_id. unfold MAX_VALUE.
  assert (0 <= u * length / 2 ^ 32) by (apply Z.div_pos; lia).
  assert (u * length / 2 ^ 32 < 2 ^ 31)
    by (apply Z.div_lt_upper_bound; nia).
  lia.
Qed.

(** X21: the fast range reduction always yields a legal index: for every
    [int] hash, also a negative one, and every non-empty array the index
    is at least 0 and below the length of the array. *)
Theorem index_in_bounds (hash_i length : Z) :
  0 < length <= MAX_VALUE ->
  0 <= index hash_i length < length.
Proof.
  intros Hl.
  destruct (index_quotient hash_i length ltac:(lia)) as [-> Hp].
  pose proof (Z.mod_pos_bound hash_i (2 ^ 32) ltac:(lia)) as Hu.
  split.
  - apply Z.div_pos; lia.
  - apply Z.div_lt_upper_bound; nia.
Qed.

(** X22: the fast range reduction reaches every index of the array and
    keeps the order of the hashes read as unsigned numbers. *)
Theorem index_onto_and_monotone (length : Z) :
  0 < length <= MAX_VALUE ->
  (forall k, 0 <= k < length -> exists h, isInt h /\ index h length = k) /\
  (forall h1 h2, h1 mod 2 ^ 32 <= h2 mod 2 ^ 32 ->
     index h1 length <= index h2 length).
Proof.
  intros Hl. split.
  - intros k Hk.
    set (u := (k * 2 ^ 32 + length - 1) / length).
    assert (Hlo : k * 2 ^ 32 <= u * length).
    { pose proof (Z.mul_succ_div_gt (k * 2 ^ 32 + length - 1) length
                    ltac:(lia)).
      fold u in H. lia. }
    assert (Hhi : u * length <= k * 2 ^ 32 + length - 1).
    { pose proof (Z.mul_div_le (k * 2 ^ 32 + length - 1) length ltac:(lia)).
      fold u in H. lia. }
    assert (Hu : 0 <= u < 2 ^ 32).
    { unfold MAX_VALUE in Hl. split.
      - apply Z.div_pos; lia.
      - apply Z.div_lt_upper_bound; nia. }
    exists (toInt u). split; [apply toInt_range |].
    destruct (index_quotient (toInt u) length ltac:(lia)) as [-> _].
    rewrite toInt_mod_2_32, Z.mod_small by exact Hu.
    symmetry. apply Z.div_unique with (r := u * length - k * 2 ^ 32).
    + unfold MAX_VALUE in Hl. lia.
    + lia.
  - intros h1 h2 Hle.
    destruct (index_quotient h1 length ltac:(lia)) as [-> _].
    destruct (index_quotient h2 length ltac:(lia)) as [-> _].
    pose proof (Z.mod_pos_bound h1 (2 ^ 32) ltac:(lia)).
    apply Z.div_le_mono; [lia | nia].
Qed.

(** X23: a [Record] keeps the whole 64 bit hash of its key, so that keys
    with different hash codes never get the same pair of hashes. *)
Theorem newRecord_injective (h1 h2 : Z) :
  isInt h1 -> isInt h2 -> h1 <> h2 -> newRecord h1 <> newRecord h2.
Proof.
  unfold isInt, MAX_VALUE. intros H1 H2 Hne E. apply Hne.
  pose proof (newRecord_halves h1) as E1.
  pose proof (newRecord_halves h2) as E2.
  cbv zeta in E1, E2. rewrite E in E1. rewrite E1 in E2.
  apply (f_equal (fun x => (x * 17428512612931826493) mod 2 ^ 64)) in E2.
  cbv beta in E2. rewrite !G_FACTOR_64_inverse in E2.
  pose proof (Z.div_mod h1 (2 ^ 64) ltac:(lia)).
  pose proof (Z.div_mod h2 (2 ^ 64) ltac:(lia)).
  pose proof (Z.mod_pos_bound h1 (2 ^ 64) ltac:(lia)).
  lia.
Qed.

(** X24: the hashes of a record form an arithmetic progression in [int]
    arithmetic: [hash(0)] is [hb] and [hash(i + 1)] is [hash(i) + ha], so
    that the family can be walked with one addition per hash. *)
Theorem hash_progression (hashCode i : Z) :
  let r := newRecord hashCode in
  hash r 0 = hb r /\
  hash r (i + 1) = toInt (hash r i + ha r).
Proof.
  cbv zeta. unfold hash. split.
  - rewrite Z.mul_0_r. change (toInt 0) with 0. rewrite Z.add_0_l.
    apply toInt_id. apply toInt_range.
  - set (a := ha (newRecord hashCode)). set (b := hb (newRecord hashCode)).
    rewrite (toInt_add_l (toInt (a * i) + b) a).
    replace (toInt (a * i) + b + a) with (toInt (a * i) + (b + a)) by lia.
    rewrite !toInt_add_l. f_equal. lia.
Qed.

Lemma index_in_bounds_witness :
  0 < 10 <= MAX_VALUE /\ 0 <= index (-1) 10 < 10.
Proof.
  assert (H : 0 < 10 <= MAX_VALUE) by (unfold MAX_VALUE; lia).
  split; [exact H |]. exact (index_in_bounds (-1) 10 H).
Defined.

Lemma index_onto_and_monotone_witness :
  0 < 10 <= MAX_VALUE /\
  (forall k, 0 <= k < 10 -> exists h, isInt h /\ index h 10 = k).
Proof.
  assert (H : 0 < 10 <= MAX_VALUE) by (unfold MAX_VALUE; lia).
  split; [exact H |]. exact (proj1 (index_onto_and_monotone 10 H)).
Defined.

Lemma newRecord_injective_witness :
  (isInt 1 /\ isInt 2 /\ 1 <> 2) /\ newRecord 1 <> newRecord 2.
Proof.
  assert (H1 : isInt 1) by (unfold isInt, MAX_VALUE; lia).
  assert (H2 : isInt 2) by (unfold isInt, MAX_VALUE; lia).
  assert (H3 : 1 <> 2) by lia.
  split; [exact (conj H1 (conj H2 H3)) |].
  exact (newRecord_injective 1 2 H1 H2 H3).
Defined.

End UniversalHashFacts.

(** ** A fork on a range of odd length *)

Module ForkFacts.
Import JavaInt JavaIntFacts CustomCC CustomCCFacts Coverage ForestFacts.

Lemma odd_half (s : Z) : Z.odd s = true -> s = 2 * (s / 2) + 1.
Proof.
  intros H. pose proof (Z.div_mod s 2 ltac:(lia)) as E.
  rewrite Zmod_odd, H in E. exact E.
Qed.

(** With the constants of the post the root task of an array of 20001
    elements has the pending count 1. *)
Lemma post_root_20001 (availableProcessors : Z) (arr : list Z) :
  1 <= availableProcessors < 2 ^ 29 ->
  Z.of_nat (length arr) = 20001 ->
  newCustomCC (post_TARGET_LEAVES availableProcessors) post_MIN_SIZE_PER_LEAF
              arr
  = mkCustomCC 20001 0 1.
Proof.
  intros H Hlen. unfold newCustomCC. rewrite Hlen.
  rewrite post_computeInitialPending_20001 by exact H. reflexivity.
Qed.

(** C4, at a task that forks on a range of odd length (the root task of
    an array of 20001 elements is one): the first sub task is given the
    pending count p - 1 and the range of floor(size / 2) elements behind
    the front floor(size / 2) elements of the task, which ends one index
    before the range of the task ends; it is not the back half of the
    range, and the last index of the range is neither in the range of the
    sub task nor in the leaf range of any task of the forest. *)
Theorem compute_fork_misses_back_index (len : Z) (t : CustomCC) :
  len <= MAX_VALUE -> inside len t ->
  1 <= pending t -> Z.odd (size t) = true ->
  let half := size t / 2 in
  let last := pos t + size t - 1 in
  exists rest,
    forked t = mkCustomCC half (pos t + half) (pending t - 1) :: rest /\
    pos t + half + half = last /\
    inRange last (pos t, size t) /\
    ~ inRange last (pos t + half, half) /\
    (forall r, In r (leafRanges (S (Z.to_nat (pending t))) t) ->
       ~ inRange last r).
Proof.
  intros Hlen Ht Hp Hodd. cbv zeta.
  destruct t as [s q pd]. unfold inside in Ht.
  cbn [pending size pos] in *. destruct Ht as (_ & Hs & Hq & Hin).
  pose proof (odd_half s Hodd) as Hs2.
  set (h := s / 2) in *.
  set (p := Z.to_nat (pd - 1)).
  assert (Epd : pd = Z.of_nat (S p)) by (unfold p; lia).
  clearbody p. subst pd.
  assert (Hh : 0 <= h) by lia.
  exists (rev (fst (forks (mkCustomCC h q (Z.of_nat p))))).
  split; [| split; [| split; [| split]]].
  - unfold forked. rewrite forks_S by lia. fold h. cbn [fst].
    rewrite rev_app_distr. cbn [rev app].
    replace (Z.of_nat (S p) - 1) with (Z.of_nat p) by lia. reflexivity.
  - lia.
  - unfold inRange. cbn [fst snd]. lia.
  - unfold inRange. cbn [fst snd]. lia.
  - intros r Hr. rewrite Nat2Z.id in Hr.
    rewrite (leafRanges_halves len) in Hr by lia. fold h in Hr.
    apply in_app_or in Hr.
    pose proof (separated_leafRanges len p h q Hlen Hh Hq ltac:(lia)) as S1.
    pose proof (separated_leafRanges len p h (q + h) Hlen Hh ltac:(lia)
                  ltac:(lia)) as S2.
    unfold inRange. destruct Hr as [Hr | Hr].
    + destruct (separated_In _ _ _ r S1 Hr) as (_ & _ & Hend). lia.
    + destruct (separated_In _ _ _ r S2 Hr) as (_ & _ & Hend). lia.
Qed.

Lemma compute_fork_misses_back_index_witness :
  let t := mkCustomCC 20001 0 1 in
  (20001 <= MAX_VALUE /\ inside 20001 t /\ 1 <= pending t
   /\ Z.odd (size t) = true) /\
  exists rest,
    forked t = mkCustomCC 10000 10000 0 :: rest /\
    inRange 20000 (pos t, size t) /\
    ~ inRange 20000 (10000, 10000) /\
    (forall r, In r (leafRanges 2 t) -> ~ inRange 20000 r).
Proof.
  intros t.
  assert (H1 : 20001 <= MAX_VALUE) by (unfold MAX_VALUE; lia).
  assert (H2 : inside 20001 t) by (unfold inside, t; cbn; lia).
  assert (H3 : 1 <= pending t) by (unfold t; cbn; lia).
  assert (H4 : Z.odd (size t) = true) by reflexivity.
  destruct (compute_fork_misses_back_index 20001 t H1 H2 H3 H4)
    as (rest & Ha & _ & Hc & Hd & He).
  split; [exact (conj H1 (conj H2 (conj H3 H4))) |].
  exists rest. split; [exact Ha |]. split; [exact Hc |].
  split; [exact Hd | exact He].
Defined.

End ForkFacts.
